(** * company_scrapper: a shallow embedding of the crawl-and-extract pipeline

    The development follows the Python sources module by module:
    - [utils.py]     : [clean_text], [extract_emails], [extract_phones],
                       [get_internal_links], [is_social_link];
    - [extractor.py] : [extract_identity], [filter_priority_pages],
                       [extract_company_description], [extract_pricing],
                       [categorize_social_links];
    - [fetcher.py], [parser.py], [runner.py] : [fetch_page], [run].

    Modelling conventions.
    - A Python [str] is a list of characters ([list ascii]).  The character
      classes of [re] and of the [str] methods are the ones Python uses on
      ASCII text (code points below 128); bytes above 127 are treated as
      caseless, non-space, non-word characters.
    - A Python [set] of strings is represented by the sequence of its
      insertions; the order in which it is iterated is not fixed by the
      language, so it is a parameter ([SetOrder]) constrained only to list
      every member once.
    - The regular expressions of the program are run by a backtracking
      matcher ([bt]) with the priorities of Python's [re]: greedy
      quantifiers, left alternative first, leftmost match, [findall]
      resuming at the end of the previous match.
    - The browser, the HTML parser, [urllib] and the clock are outside the
      repository: they are parameters of the orchestrator.
    - [urllib.parse] raises [ValueError] on some URLs and the program does not
      catch it.  [get_internal_links] and [run] describe the calls that
      return; [get_internal_links_exc] and [run_exc] are the same functions
      with the exit by exception, and [run_exc_spec] relates the two. *)

From Stdlib Require Import Ascii String.
From stdpp Require Import base list strings gmap sorting.

(** ** Strings as lists of characters *)

Abbreviation str := (list ascii).

Coercion String.list_ascii_of_string : string >-> list.

(* String literals inside list literals are read at the element type. *)
#[local] Arguments cons {A} & _ _.

Definition code (c : ascii) : nat := nat_of_ascii c.

Definition between (lo hi : nat) (c : ascii) : bool :=
  (lo <=? code c) && (code c <=? hi).

(** [0-9], which is also [\d] on ASCII text. *)
Definition is_digit : ascii → bool := between 48 57.
Definition is_upper : ascii → bool := between 65 90.
Definition is_lower : ascii → bool := between 97 122.
(** [a-zA-Z] *)
Definition is_alpha (c : ascii) : bool := is_upper c || is_lower c.
(** [a-zA-Z0-9] *)
Definition is_alnum (c : ascii) : bool := is_alpha c || is_digit c.
(** [\w] *)
Definition is_word (c : ascii) : bool := is_alnum c || Ascii.eqb c "_"%char.
(** [\s] and the characters removed by [str.strip()]: TAB, LF, VT, FF, CR,
    the separators FS, GS, RS, US and the space. *)
Definition is_space (c : ascii) : bool :=
  between 9 13 c || between 28 31 c || Ascii.eqb c " "%char.

(** Membership in a bracketed set of literal characters. *)
Definition one_of (cs : str) (c : ascii) : bool := existsb (Ascii.eqb c) cs.

Definition lower_char (c : ascii) : ascii :=
  if is_upper c then ascii_of_nat (code c + 32) else c.
Definition upper_char (c : ascii) : ascii :=
  if is_lower c then ascii_of_nat (code c - 32) else c.

(** [str.lower()] *)
Definition lower (s : str) : str := map lower_char s.

(** [str.capitalize()] *)
Definition capitalize (s : str) : str :=
  match s with
  | [] => []
  | c :: s' => upper_char c :: lower s'
  end.

(** [str.isdigit()] *)
Definition isdigit (s : str) : bool :=
  match s with
  | [] => false
  | _ => forallb is_digit s
  end.

Fixpoint drop_while (p : ascii → bool) (s : str) : str :=
  match s with
  | [] => []
  | c :: s' => if p c then drop_while p s' else s
  end.

Definition lstrip (s : str) : str := drop_while is_space s.
Definition rstrip (s : str) : str := rev (drop_while is_space (rev s)).
(** [str.strip()] *)
Definition strip (s : str) : str := rstrip (lstrip s).

(** [s.startswith(p)] *)
Fixpoint startswith (p s : str) : bool :=
  match p, s with
  | [], _ => true
  | a :: p', b :: s' => Ascii.eqb a b && startswith p' s'
  | _ :: _, [] => false
  end.

(** [needle in hay] *)
Fixpoint contains (needle hay : str) : bool :=
  startswith needle hay ||
  match hay with
  | [] => false
  | _ :: hay' => contains needle hay'
  end.

(** [s.split(sep)] for a one-character separator: never the empty list. *)
Fixpoint split (sep : ascii) (s : str) : list str :=
  match s with
  | [] => [[]]
  | c :: s' =>
      if Ascii.eqb c sep then [] :: split sep s'
      else match split sep s' with
           | seg :: segs => (c :: seg) :: segs
           | [] => [[c]]
           end
  end.

(** [sep.join(parts)] *)
Fixpoint join (sep : str) (parts : list str) : str :=
  match parts with
  | [] => []
  | [p] => p
  | p :: ps => p ++ sep ++ join sep ps
  end.

(** [s.replace(old, new)]: occurrences are replaced from left to right and do
    not overlap.  [skip] counts the characters of an occurrence that are still
    to be passed over. *)
Fixpoint replace_from (old new s : str) (skip : nat) : str :=
  match s with
  | [] => []
  | c :: s' =>
      match skip with
      | S n => replace_from old new s' n
      | 0 =>
          if startswith old s
          then new ++ replace_from old new s' (pred (length old))
          else c :: replace_from old new s' 0
      end
  end.

(** Only non-empty [old] is used by the program. *)
Definition replace (old new s : str) : str := replace_from old new s 0.

(** [parts[-1]] of a non-empty list; the default is never reached on the
    results of [split]. *)
Definition last_part (parts : list str) : str := List.last parts [].

(** ** Sets of strings *)

(** A set is kept as the sequence of its insertions.  Python does not fix the
    order in which a set is iterated; [list_of_set] stands for that order. *)
Class SetOrder := {
  list_of_set : list str → list str;
  list_of_set_NoDup : ∀ l, NoDup (list_of_set l);
  list_of_set_elem : ∀ l x, x ∈ list_of_set l ↔ x ∈ l
}.

(** One possible order: every member at the place of its last insertion. *)
Definition insertion_order : SetOrder :=
  {| list_of_set := remove_dups;
     list_of_set_NoDup := NoDup_remove_dups;
     list_of_set_elem := λ l x, elem_of_remove_dups l x |}.

(** ** Regular expressions *)

Module Re.

(** The fragment of Python's pattern language that the program uses.
    Every quantifier is greedy; [Rep p lo hi] is a character class
    repeated [lo] to [hi] times ([None]: unbounded). *)
Inductive regex : Type :=
| Eps
| Cls (p : ascii → bool)
| Cat (r1 r2 : regex)
| Alt (r1 r2 : regex)
| Opt (r : regex)
| Rep (p : ascii → bool) (lo : nat) (hi : option nat)
| NotBehind (p : ascii → bool)     (* (?<![...]) *)
| NotAhead (p : ascii → bool)      (* (?![...])  *)
| WordB                            (* \b *)
| Bos                              (* ^  *)
| Eos.                             (* $  *)

Definition chr (c : ascii) : regex := Cls (Ascii.eqb c).

Fixpoint lit (s : str) : regex :=
  match s with
  | [] => Eps
  | c :: s' => Cat (chr c) (lit s')
  end.

Definition plus (p : ascii → bool) : regex := Rep p 1 None.

(** A position in the subject: the characters already passed (nearest
    first) and the characters still ahead. *)
Record cursor := Cursor { seen : str; rest : str }.

Definition word_before (z : cursor) : bool :=
  match seen z with c :: _ => is_word c | [] => false end.
Definition word_after (z : cursor) : bool :=
  match rest z with c :: _ => is_word c | [] => false end.

Definition may_take (hi : option nat) : bool :=
  match hi with Some 0 => false | _ => true end.

(** Greedy repetition of a class: take as many characters as allowed, and
    give them back one at a time as long as the continuation fails. *)
Fixpoint rep (p : ascii → bool) (lo : nat) (hi : option nat)
    (b a : str) (k : cursor → option cursor) : option cursor :=
  let stop := match lo with 0 => k (Cursor b a) | S _ => None end in
  match a with
  | [] => stop
  | c :: a' =>
      if p c && may_take hi
      then match rep p (pred lo) (pred <$> hi) (c :: b) a' k with
           | Some e => Some e
           | None => stop
           end
      else stop
  end.

(** The backtracking matcher, in continuation-passing style: [bt r z k]
    is the end of the first way (in the matcher's priority order) of
    matching [r] at [z] that the continuation [k] accepts. *)
Fixpoint bt (r : regex) (z : cursor) (k : cursor → option cursor)
    : option cursor :=
  match r with
  | Eps => k z
  | Cls p =>
      match rest z with
      | c :: a => if p c then k (Cursor (c :: seen z) a) else None
      | [] => None
      end
  | Cat r1 r2 => bt r1 z (λ z', bt r2 z' k)
  | Alt r1 r2 =>
      match bt r1 z k with
      | Some e => Some e
      | None => bt r2 z k
      end
  | Opt r1 =>
      match bt r1 z k with
      | Some e => Some e
      | None => k z
      end
  | Rep p lo hi => rep p lo hi (seen z) (rest z) k
  | NotBehind p =>
      match seen z with
      | c :: _ => if p c then None else k z
      | [] => k z
      end
  | NotAhead p =>
      match rest z with
      | c :: _ => if p c then None else k z
      | [] => k z
      end
  | WordB => if xorb (word_before z) (word_after z) then k z else None
  | Bos => match seen z with [] => k z | _ :: _ => None end
  | Eos =>
      match rest z with
      | [] => k z
      | [c] => if Ascii.eqb c "010"%char then k z else None
      | _ => None
      end
  end.

Definition match_at (r : regex) (z : cursor) : option cursor := bt r z Some.

(** [re.match(r, s)] as a truth value. *)
Definition re_match (r : regex) (s : str) : bool :=
  bool_decide (is_Some (match_at r (Cursor [] s))).

(** Number of characters between two positions of the same subject. *)
Definition span (a : str) (e : cursor) : nat := length a - length (rest e).

(** [re.findall(r, text)] for a pattern without capturing groups: the
    leftmost match, then the leftmost match after its end, and so on.
    [skip] counts the characters of the last match still to be passed.
    No pattern of the program matches the empty string. *)
Fixpoint scan (r : regex) (b a : str) (skip : nat) : list str :=
  match a with
  | [] =>
      match skip, match_at r (Cursor b []) with
      | 0, Some _ => [[]]
      | _, _ => []
      end
  | c :: a' =>
      match skip with
      | S n => scan r (c :: b) a' n
      | 0 =>
          match match_at r (Cursor b a) with
          | Some e => take (span a e) a :: scan r (c :: b) a' (pred (span a e))
          | None => scan r (c :: b) a' 0
          end
      end
  end.

Definition findall (r : regex) (text : str) : list str := scan r [] text 0.

(** [re.sub(r, repl, text)] for a literal replacement and a pattern that
    does not match the empty string. *)
Fixpoint sub_from (r : regex) (repl : str) (b a : str) (skip : nat) : str :=
  match a with
  | [] => []
  | c :: a' =>
      match skip with
      | S n => sub_from r repl (c :: b) a' n
      | 0 =>
          match match_at r (Cursor b a) with
          | Some e =>
              match span a e with
              | 0 => c :: sub_from r repl (c :: b) a' 0
              | S n => repl ++ sub_from r repl (c :: b) a' n
              end
          | None => c :: sub_from r repl (c :: b) a' 0
          end
      end
  end.

Definition sub (r : regex) (repl text : str) : str := sub_from r repl [] text 0.

End Re.

Import Re.

(** ** utils.py *)

Definition SOCIAL_DOMAINS : list str :=
  ["linkedin.com"; "twitter.com"; "x.com"; "facebook.com"; "instagram.com";
   "youtube.com"].

(** [\s+] *)
Definition whitespace_run : regex := plus is_space.

Definition clean_text (text : str) : str :=
  match text with
  | [] => []
  | _ => strip (sub whitespace_run " " text)
  end.

(** [[a-zA-Z0-9._%+-]+@[a-zA-Z0-9.-]+\.[a-zA-Z]{2,}] *)
Definition email_local (c : ascii) : bool := is_alnum c || one_of "._%+-" c.
Definition email_domain (c : ascii) : bool := is_alnum c || one_of ".-" c.
Definition email_pattern : regex :=
  Cat (plus email_local)
    (Cat (chr "@"%char)
       (Cat (plus email_domain)
          (Cat (chr "."%char) (Rep is_alpha 2 None)))).

Definition extract_emails `{SetOrder} (text : str) : list str :=
  list_of_set (findall email_pattern text).

(** [(?:\+\d{1,3}[-.\s]?)?\(?[0-9]{2,4}\)?[-.\s]?[0-9]{2,4}[-.\s]?[0-9]{4}] *)
Definition phone_sep (c : ascii) : bool := one_of "-." c || is_space c.
Definition phone_pattern : regex :=
  Cat (Opt (Cat (chr "+"%char) (Cat (Rep is_digit 1 (Some 3)) (Opt (Cls phone_sep)))))
    (Cat (Opt (chr "("%char))
       (Cat (Rep is_digit 2 (Some 4))
          (Cat (Opt (chr ")"%char))
             (Cat (Opt (Cls phone_sep))
                (Cat (Rep is_digit 2 (Some 4))
                   (Cat (Opt (Cls phone_sep))
                      (Rep is_digit 4 (Some 4)))))))).

(** [[^\d+]] *)
Definition not_digit_plus (c : ascii) : bool := negb (is_digit c || Ascii.eqb c "+"%char).
(** [^\d{1,4}$] *)
Definition short_numeral : regex := Cat Bos (Cat (Rep is_digit 1 (Some 4)) Eos).

(** The form of a match under which duplicates are recognised. *)
Definition cleaned (m : str) : str := sub (Cls not_digit_plus) "" m.

(** One iteration of the loop of [extract_phones] over [matches]; the state
    is the pair of [phones] and [seen]. *)
Definition phone_step (st : list str * gset str) (m : str) : list str * gset str :=
  let '(phones, seen) := st in
  let c := cleaned m in
  if (8 <=? length c) && negb (bool_decide (c ∈ seen)) then
    if negb (re_match short_numeral c)
    then (phones ++ [strip m], {[ c ]} ∪ seen)
    else (phones, seen)
  else (phones, seen).

Definition extract_phones (text : str) : list str :=
  match text with
  | [] => []
  | _ => (foldl phone_step ([], ∅) (findall phone_pattern text)).1
  end.

(** [any(domain in url.lower() for domain in SOCIAL_DOMAINS)] *)
Definition is_social_link (url : str) : bool :=
  existsb (λ domain, contains domain (lower url)) SOCIAL_DOMAINS.

(** ** The parsed document *)

(** What the program reads from a BeautifulSoup object.  [get_visible_text]
    removes the [script], [style] and [noscript] elements before any other
    query is made, so the fields describe the document after that removal. *)
Record Soup := {
  soup_title : option (option str);  (* [soup.title], then its [.string] *)
  soup_h1 : option str;              (* [.text] of [soup.find("h1")] *)
  soup_hrefs : list str;             (* [a["href"]] over [find_all("a", href=True)] *)
  soup_headings : list str;          (* [.text] over [find_all(['h1','h2','h3'])] *)
  soup_text : str                    (* [soup.get_text()] *)
}.

(** parser.py *)
Definition get_visible_text (soup : Soup) : str := clean_text (soup_text soup).

(** ** extractor.py *)

Definition PRIORITY_KEYWORDS : list str :=
  ["about"; "company"; "products"; "solutions";
   "industries"; "pricing"; "contact"; "careers";
   "innovations"; "about us"; "blog"; "news";
   "features"; "services"; "why"; "use cases";
   "updates"; "resources"; "case studies";
   "contact"; "contact us"; "get in touch"; "support";
   "help"; "faq"; "integrations"; "partners";
   "jobs"; "job"; "hiring"; "work with us"; "join us";
   "team"; "our team"; "leadership"].

Record Identity := {
  company_name : str;
  website : str;
  tagline : str
}.

(** [soup.title.string if soup.title else ""]; [None] is Python's [None]. *)
Definition title_string (soup : Soup) : option str :=
  match soup_title soup with
  | Some t => t
  | None => Some []
  end.

(** The name derived from a non-empty title. *)
Definition name_of_title (title : str) : str :=
  let parts := strip <$> split "|" (replace " - " "-" (replace " | " "|" title)) in
  if 1 <? length parts then last_part parts
  else
    let parts := split "-" title in
    if 1 <? length parts then strip (last_part parts)
    else strip title.

(** [urlparse(url).netloc.replace("www.", "").split(".")[0]] *)
Definition domain_label (netloc : str) : str :=
  hd [] (split "." (replace "www." "" netloc)).

(** The two functions of [urllib.parse] that the program calls:
    [urlparse(url).netloc] and [urljoin(base, url)]. *)
Class Urllib := {
  urlparse_netloc : str → str;
  urljoin : str → str → str
}.

Definition extract_identity `{Urllib} (soup : Soup) (url : str) : Identity :=
  let title := title_string soup in
  let h1 := soup_h1 soup in
  let domain := domain_label (urlparse_netloc url) in
  let company_name :=
    match title with
    | Some ((_ :: _) as title) => name_of_title title
    | _ => capitalize domain
    end in
  {| company_name := company_name;
     website := url;
     tagline := match h1 with Some t => strip t | None => [] end |}.

Definition extract_links (soup : Soup) : list str := soup_hrefs soup.

Definition is_priority (link : str) : bool :=
  existsb (λ key, contains key (lower link)) PRIORITY_KEYWORDS.

Definition filter_priority_pages `{SetOrder} (links : list str) : list str :=
  list_of_set (List.filter is_priority links).

Record Contacts := {
  emails : list str;
  phones : list str
}.

Definition extract_contacts `{SetOrder} (text : str) : Contacts :=
  {| emails := extract_emails text; phones := extract_phones text |}.

Definition extract_company_description (text : str) : str :=
  match text with
  | [] => []
  | _ =>
      let sentences := take 5 (split "." text) in
      let description := strip (join ". " sentences) in
      let description := sub whitespace_run " " description in
      if 500 <? length description
      then take 500 description ++ "..."
      else description
  end.

Definition service_keywords : list str :=
  ["service"; "product"; "solution"; "tool"; "platform";
   "feature"; "offering"; "plan"; "package"; "subscription";
   "software"; "application"; "api"; "integration"; "plugin"].

Definition is_service_line (line : str) : bool :=
  let line_lower := strip (lower line) in
  match line_lower with
  | [] => false
  | _ =>
      if length line_lower <? 10 then false
      else existsb (λ keyword,
             contains keyword line_lower && (15 <? length line) && (length line <? 200))
             service_keywords
  end.

Definition extract_services_and_products `{SetOrder} (text : str) : list str :=
  match text with
  | [] => []
  | _ =>
      let lines := split "010" text in
      let services := strip <$> List.filter is_service_line (take 50 lines) in
      take 10 (list_of_set services)
  end.

Record PricingInfo := {
  tiers : list str;
  prices : list str;
  trial_available : bool;
  free_option : bool
}.

Definition tier_keywords : list str :=
  ["starter"; "basic"; "pro"; "premium"; "enterprise"; "business"; "professional"].

(** [(?:\.\d{2})?] *)
Definition cents : regex := Opt (Cat (chr ".") (Rep is_digit 2 (Some 2))).
(** [/(?:month|year)] *)
Definition per_period : regex := Cat (chr "/") (Alt (lit "month") (lit "year")).

(** [\$[\d,]+(?:\.\d{2})?(?:/(?:month|year))?] *)
Definition price_pattern : regex :=
  Cat (chr "$")
    (Cat (plus (λ c, is_digit c || Ascii.eqb c ","))
       (Cat cents (Opt per_period))).

(** [(?<![a-zA-Z])\d{2,5}(?:\.\d{2})?/(?:month|year)] *)
Definition price_pattern_no_dollar : regex :=
  Cat (NotBehind is_alpha)
    (Cat (Rep is_digit 2 (Some 5)) (Cat cents per_period)).

(** [(?<!\$)\b\d{2,5}(?:\.\d{2})?\b(?![\d/])] *)
Definition price_pattern_standalone : regex :=
  Cat (NotBehind (Ascii.eqb "$"))
    (Cat WordB
       (Cat (Rep is_digit 2 (Some 5))
          (Cat cents
             (Cat WordB (NotAhead (λ c, is_digit c || Ascii.eqb c "/")))))).

(** Lexicographic order on code points: the order of [sorted] on strings. *)
Fixpoint str_leb (a b : str) : bool :=
  match a, b with
  | [], _ => true
  | _ :: _, [] => false
  | x :: a', y :: b' =>
      (code x <? code y) || ((code x =? code y) && str_leb a' b')
  end.

Definition str_le (a b : str) : Prop := str_leb a b = true.

#[global] Instance str_le_dec : RelDecision str_le.
Proof. intros a b. unfold str_le. apply _. Defined.

Definition sorted (l : list str) : list str := merge_sort str_le l.

(** The insertions into [all_prices], in program order. *)
Definition all_prices (text : str) : list str :=
  let prices_with_dollar := findall price_pattern text in
  let prices_no_dollar := findall price_pattern_no_dollar text in
  let prices_standalone := findall price_pattern_standalone text in
  prices_with_dollar
  ++ ((λ price, if startswith "$" price then price else "$" ++ price) <$> prices_no_dollar)
  ++ ((λ price, "$" ++ price) <$>
        List.filter (λ price, (0 <? length price) && isdigit price || contains "." price)
          prices_standalone).

Definition extract_pricing `{SetOrder} (text : str) : option PricingInfo :=
  match text with
  | [] => None
  | _ =>
      let text_lower := lower text in
      let free := contains "free" text_lower in
      let trial := contains "trial" text_lower || contains "free trial" text_lower in
      let found := capitalize <$> List.filter (λ tier, contains tier text_lower) tier_keywords in
      Some {| tiers := list_of_set found;
              prices := take 5 (sorted (list_of_set (all_prices text)));
              trial_available := trial;
              free_option := free |}
  end.

Definition customer_keywords : list str :=
  ["enterprise"; "startup"; "sme"; "small business"; "mid-market";
   "enterprise"; "healthcare"; "finance"; "retail"; "education";
   "manufacturing"; "technology"; "agency"; "team"; "business";
   "professional"; "developer"; "freelancer"; "consultant"].

Definition extract_target_customers `{SetOrder} (text : str) : list str :=
  match text with
  | [] => []
  | _ =>
      let text_lower := lower text in
      list_of_set
        (capitalize <$> List.filter (λ keyword, contains keyword text_lower) customer_keywords)
  end.

Record BusinessInfo := {
  services : list str;
  pricing : option PricingInfo;   (* [None] is the empty dict *)
  target_customers : list str
}.

Definition extract_business_info `{SetOrder} (text : str) : BusinessInfo :=
  {| services := extract_services_and_products text;
     pricing := extract_pricing text;
     target_customers := extract_target_customers text |}.

(** The body of the loop of [categorize_social_links]. *)
Definition categorize_step (socials : gmap string str) (link : str) : gmap string str :=
  let l := lower link in
  if contains "linkedin" l then <["linkedin" := link]> socials
  else if contains "twitter" l || contains "x.com" l then <["twitter" := link]> socials
  else if contains "facebook" l then <["facebook" := link]> socials
  else if contains "instagram" l then <["instagram" := link]> socials
  else if contains "youtube" l then <["youtube" := link]> socials
  else socials.

Definition categorize_social_links (links : list str) : gmap string str :=
  foldl categorize_step ∅ links.

(** ** fetcher.py and runner.py *)

Definition MAX_PAGES : nat := 8.

Record Metadata := {
  timestamp : str;
  pages_crawled : nat;
  errors : list str
}.

Record PageDetails := {
  text_preview : str;
  page_title : option str;   (* [None] is Python's [None] *)
  headings : list str
}.

Record KeyPages := {
  visited : list str;
  page_details : gmap str PageDetails
}.

(** The dictionary returned by [run]; a field is [None] when its key is
    absent.  The key ["metadata"] is always present. *)
Record Result := {
  metadata : Metadata;
  identity : option Identity;
  contacts : option Contacts;
  social_links : option (gmap string str);
  description : option str;
  business_info : option BusinessInfo;
  key_pages : option KeyPages
}.

(** What [driver.get(url)] followed by [driver.page_source] does: the page
    source, or an exception with its message. *)
Inductive outcome :=
| Loaded (page_source : str)
| Raised (message : str).

(** Truth value of a Python value that is [None] or a string. *)
Definition truthy (v : option str) : bool :=
  match v with
  | Some (_ :: _) => true
  | _ => false
  end.

(** [str(v)] for a value that is [None] or a string. *)
Definition py_str (v : option str) : str :=
  match v with
  | Some s => s
  | None => "None"
  end.

(** The browser session of Selenium: [driver.get(url)] followed by
    [driver.page_source], and [driver.quit()]. *)
Class Browser := {
  Driver : Type;
  driver_get : Driver → str → Driver * outcome;
  driver_quit : Driver → Driver
}.

(** [BeautifulSoup(html, "lxml")] *)
Class Parser := {
  parse_html : str → Soup
}.

(** [datetime.now(timezone.utc).isoformat()] *)
Class Clock := {
  now : str
}.

(** The state threaded through a run: the browser session and, as a record of
    what happened, every call of [fetch_page] with its outcome. *)
Record World `{Browser} := {
  driver : Driver;
  fetched : list (str * outcome)
}.

Section Orchestrator.

Context `{SetOrder} `{Browser} `{Parser} `{Urllib} `{Clock}.

Definition M (A : Type) : Type := World → A * World.

#[local] Instance state_ret : MRet M := λ A a w, (a, w).
#[local] Instance state_bind : MBind M :=
  λ A B f m w, let '(a, w') := m w in f a w'.

Fixpoint for_each {A S} (body : S → A → M S) (acc : S) (items : list A) : M S :=
  match items with
  | [] => mret acc
  | x :: items' => acc' ← body acc x; for_each body acc' items'
  end.

(** fetcher.py: [(driver.page_source, None)], or [(None, str(e))]. *)
Definition fetch_page (url : str) : M (option str * option str) :=
  λ w,
    let '(d, o) := driver_get (driver w) url in
    let w' := {| driver := d; fetched := fetched w ++ [(url, o)] |} in
    match o with
    | Loaded page_source => ((Some page_source, None), w')
    | Raised message => ((None, Some message), w')
    end.

Definition quit : M unit :=
  λ w, (tt, {| driver := driver_quit (driver w); fetched := fetched w |}).

(** utils.py *)
Definition get_internal_links (base_url : str) (links : list str) : list str :=
  let base_domain := urlparse_netloc base_url in
  list_of_set
    (List.filter (λ full, bool_decide (urlparse_netloc full = base_domain))
       (urljoin base_url <$> links)).

(** The variables updated by the loop over the priority pages. *)
Record Crawl := {
  all_text : str;
  visited_pages : list str;
  page_contents : gmap str PageDetails;
  social_set : list str    (* insertions into the set [social_links] *)
}.

(** The body of the loop. *)
Definition visit (acc : Crawl) (page_url : str) : M Crawl :=
  ' (page_html, err) ← fetch_page page_url;
  if negb (truthy page_html) then mret acc
  else
    let page_soup := parse_html (default [] page_html) in
    let page_text := get_visible_text page_soup in
    mret {| all_text := all_text acc ++ " " ++ page_text;
            visited_pages := visited_pages acc ++ [page_url];
            page_contents :=
              <[page_url := {| text_preview := take 500 page_text;
                               page_title := title_string page_soup;
                               headings := strip <$> take 5 (soup_headings page_soup) |}]>
                (page_contents acc);
            social_set :=
              social_set acc ++ List.filter is_social_link (soup_hrefs page_soup) |}.

(** [run(url)], from the call of [fetch_page] on the homepage to the returned
    dictionary.  The initial state stands for the driver made by
    [get_driver()]; the report printed on standard output is left out. *)
Definition run (url : str) : M Result :=
  ' (html, error) ← fetch_page url;
  if truthy error || negb (truthy html) then
    _ ← quit;
    mret {| metadata := {| timestamp := now; pages_crawled := 0;
                           errors := [py_str error] |};
            identity := None; contacts := None; social_links := None;
            description := None; business_info := None; key_pages := None |}
  else
    let soup := parse_html (default [] html) in
    let homepage_text := get_visible_text soup in
    let ident := extract_identity soup url in
    let homepage_links := extract_links soup in
    let internal_links := get_internal_links url homepage_links in
    let priority_pages := filter_priority_pages internal_links in
    crawl ← for_each visit
               {| all_text := homepage_text; visited_pages := [];
                  page_contents := ∅; social_set := [] |}
               (take MAX_PAGES priority_pages);
    _ ← quit;
    mret {| metadata := {| timestamp := now;
                           pages_crawled := 1 + length (visited_pages crawl);
                           errors := [] |};
            identity := Some ident;
            contacts := Some (extract_contacts (all_text crawl));
            social_links :=
              Some (categorize_social_links (list_of_set (social_set crawl)));
            description := Some (extract_company_description (all_text crawl));
            business_info := Some (extract_business_info (all_text crawl));
            key_pages := Some {| visited := visited_pages crawl;
                                 page_details := page_contents crawl |} |}.

End Orchestrator.

(** ** Exits by exception (utils.py, [get_internal_links]; runner.py, [run]) *)

(** [urllib.parse] raises [ValueError] on some arguments: [urljoin(base,
    "http://[")] does, on the bracket that is not closed.  Nothing in the
    program catches it.  [Urllib] gives the values of the two functions where
    they return; this class says where they raise. *)
Class UrllibErrors := {
  urlparse_raises : str → bool;
  urljoin_raises : str → str → bool
}.

Section Raising.

Context `{SetOrder} `{Browser} `{Parser} `{Urllib} `{UrllibErrors} `{Clock}.

#[local] Existing Instance state_ret.
#[local] Existing Instance state_bind.

(** [extract_identity] with its exit by exception: [None] stands for the
    [ValueError] of [urlparse(url)]. *)
Definition extract_identity_exc (soup : Soup) (url : str) : option Identity :=
  if urlparse_raises url then None else Some (extract_identity soup url).

(** The loop of [get_internal_links]; [internal] holds the insertions made
    so far, and [None] stands for the [ValueError] of [urljoin(base_url,
    link)] or of [urlparse(full)]. *)
Fixpoint internal_links_loop (base_url base_domain : str) (internal links : list str)
  : option (list str) :=
  match links with
  | [] => Some internal
  | link :: links' =>
      if urljoin_raises base_url link then None
      else
        let full := urljoin base_url link in
        if urlparse_raises full then None
        else
          internal_links_loop base_url base_domain
            (if bool_decide (urlparse_netloc full = base_domain)
             then internal ++ [full] else internal)
            links'
  end.

Definition get_internal_links_exc (base_url : str) (links : list str)
  : option (list str) :=
  if urlparse_raises base_url then None
  else
    list_of_set <$> internal_links_loop base_url (urlparse_netloc base_url) [] links.

(** [run(url)] with its exits by exception: the result is [None] when a
    [ValueError] leaves [run]; the state is then the one in which it was
    raised. *)
Definition run_exc (url : str) : M (option Result) :=
  ' (html, error) ← fetch_page url;
  if truthy error || negb (truthy html) then
    _ ← quit;
    mret (Some {| metadata := {| timestamp := now; pages_crawled := 0;
                                 errors := [py_str error] |};
                  identity := None; contacts := None; social_links := None;
                  description := None; business_info := None; key_pages := None |})
  else
    let soup := parse_html (default [] html) in
    let homepage_text := get_visible_text soup in
    match extract_identity_exc soup url with
    | None => mret None
    | Some ident =>
        let homepage_links := extract_links soup in
        match get_internal_links_exc url homepage_links with
        | None => mret None
        | Some internal_links =>
            let priority_pages := filter_priority_pages internal_links in
            crawl ← for_each visit
                       {| all_text := homepage_text; visited_pages := [];
                          page_contents := ∅; social_set := [] |}
                       (take MAX_PAGES priority_pages);
            _ ← quit;
            mret (Some
              {| metadata := {| timestamp := now;
                                pages_crawled := 1 + length (visited_pages crawl);
                                errors := [] |};
                 identity := Some ident;
                 contacts := Some (extract_contacts (all_text crawl));
                 social_links :=
                   Some (categorize_social_links (list_of_set (social_set crawl)));
                 description := Some (extract_company_description (all_text crawl));
                 business_info := Some (extract_business_info (all_text crawl));
                 key_pages := Some {| visited := visited_pages crawl;
                                      page_details := page_contents crawl |} |})
        end
    end.

(** Some call of [urllib.parse] made for the site URL and the links of its
    homepage raises. *)
Definition links_raise (base_url : str) (links : list str) : bool :=
  urlparse_raises base_url
  || existsb (λ link, urljoin_raises base_url link
                      || urlparse_raises (urljoin base_url link)) links.

End Raising.

(** ** A small fixed web, for running the orchestrator *)

Module Canned.

(** [urlparse(url).netloc] for the [http] and [https] URLs of the examples:
    what stands between [//] and the next [/], [?] or [#]. *)
Fixpoint authority (s : str) : str :=
  match s with
  | [] => []
  | c :: s' => if one_of "/?#" c then [] else c :: authority s'
  end.

Definition netloc (url : str) : str :=
  if startswith "https://" url then authority (drop 8 url)
  else if startswith "http://" url then authority (drop 7 url)
  else [].

(** [urljoin(base, link)] for a base without path and links that are either
    absolute or begin with [/]. *)
Definition join_url (base link : str) : str :=
  if startswith "http" link then link else base ++ link.

#[export] Instance urllib : Urllib :=
  {| urlparse_netloc := netloc; urljoin := join_url |}.

Definition home : str := "https://acme.test".

(** The site: the homepage and three pages, one of which does not load. *)
Definition serve (url : str) : outcome :=
  if bool_decide (url = home) then Loaded "HOME"
  else if bool_decide (url = "https://acme.test/about") then Loaded "ABOUT"
  else if bool_decide (url = "https://acme.test/pricing") then Raised "timeout"
  else if bool_decide (url = "https://acme.test/contact") then Loaded "CONTACT"
  else Raised "net::ERR_NAME_NOT_RESOLVED".

(** The driver state counts the navigations. *)
#[export] Instance browser : Browser :=
  {| Driver := nat;
     driver_get := λ d url, (S d, serve url);
     driver_quit := λ d, d |}.

Definition home_soup : Soup :=
  {| soup_title := Some (Some ("Home | Acme Rockets" : str));
     soup_h1 := Some (" Rockets for everyone " : str);
     soup_hrefs := ["/about"; "/pricing"; "/contact"; "/legal";
                    "https://twitter.com/acme"];
     soup_headings := ["Rockets for everyone"];
     soup_text := "Acme builds rockets. Starter plan $29/month." |}.

Definition about_soup : Soup :=
  {| soup_title := Some (Some ("About" : str));
     soup_h1 := None;
     soup_hrefs := ["https://www.linkedin.com/company/acme"; "/"];
     soup_headings := ["About us"; "Team"];
     soup_text := "We are a team of 12." |}.

Definition contact_soup : Soup :=
  {| soup_title := None;
     soup_h1 := None;
     soup_hrefs := ["mailto:info@acme.test"];
     soup_headings := [];
     soup_text := "Write to info@acme.test or call +1-555-123-4567." |}.

Definition empty_soup : Soup :=
  {| soup_title := None; soup_h1 := None; soup_hrefs := [];
     soup_headings := []; soup_text := [] |}.

Definition parse (html : str) : Soup :=
  if bool_decide (html = "HOME") then home_soup
  else if bool_decide (html = "ABOUT") then about_soup
  else if bool_decide (html = "CONTACT") then contact_soup
  else empty_soup.

#[export] Instance parser : Parser := {| parse_html := parse |}.

#[export] Instance clock : Clock := {| now := "2024-01-01T00:00:00+00:00" |}.

#[export] Instance order : SetOrder := insertion_order.

Definition start : World := {| driver := 0; fetched := [] |}.

End Canned.

(** ** A site with a malformed link *)

Module Broken.

(** The driver state counts the navigations and records whether [quit] was
    called. *)
#[export] Instance browser : Browser :=
  {| Driver := nat * bool;
     driver_get := λ d url, ((S d.1, d.2), Canned.serve url);
     driver_quit := λ d, (d.1, true) |}.

(** The homepage: two links, one with a bracket that is not closed. *)
Definition home_soup : Soup :=
  {| soup_title := Some (Some ("Acme Rockets" : str));
     soup_h1 := None;
     soup_hrefs := ["/about"; "http://["];
     soup_headings := [];
     soup_text := "Acme builds rockets." |}.

Definition parse (html : str) : Soup :=
  if bool_decide (html = "HOME") then home_soup else Canned.parse html.

#[export] Instance parser : Parser := {| parse_html := parse |}.

(** [urljoin] and [urlparse] raise on the malformed link, and on no other
    URL of the examples. *)
#[export] Instance errors : UrllibErrors :=
  {| urlparse_raises := λ url, bool_decide (url = "http://[");
     urljoin_raises := λ _ link, bool_decide (link = "http://[") |}.

Definition start : World := {| driver := (0, false); fetched := [] |}.

End Broken.

(** ** A site whose homepage links to itself *)

Module SelfLink.

(** The URL of the site holds the priority keyword "company". *)
Definition home : str := "https://company.test".

#[export] Instance browser : Browser :=
  {| Driver := nat;
     driver_get := λ d url,
       (S d, if bool_decide (url = home) then Loaded "HOME"
             else Raised "net::ERR_NAME_NOT_RESOLVED");
     driver_quit := λ d, d |}.

Definition home_soup : Soup :=
  {| soup_title := Some (Some ("Company" : str));
     soup_h1 := None;
     soup_hrefs := ["https://company.test"];
     soup_headings := [];
     soup_text := "Company." |}.

#[export] Instance parser : Parser := {| parse_html := λ _, home_soup |}.

Definition start : World := {| driver := 0; fetched := [] |}.

End SelfLink.

(** * Properties *)

(** ** The embedding at work *)

Example clean_text_example :
  clean_text ("  Rockets   for" ++ ["010"%char; "009"%char] ++ "everyone ")
  = "Rockets for everyone".
Proof. by vm_compute. Qed.

Example extract_emails_example :
  @extract_emails insertion_order
    "Write to info@example.com, sales@example.org or info@example.com."
  = ["sales@example.org"; "info@example.com"].
Proof. by vm_compute. Qed.

Example extract_phones_example :
  extract_phones "Tel. 020 7946 0958, fax 020-7946-0958, since 2019"
  = ["020 7946 0958"].
Proof. by vm_compute. Qed.

Example extract_company_description_example :
  extract_company_description "A. B.  C. D. E. F. G." = "A. B. C. D. E".
Proof. by vm_compute. Qed.

Example extract_pricing_example :
  @extract_pricing insertion_order
    "Starter plan $29/month, Pro plan $99/month, free trial available"
  = Some {| tiers := ["Starter"; "Pro"];
            prices := ["$29/month"; "$99/month"];
            trial_available := true;
            free_option := true |}.
Proof. by vm_compute. Qed.

Example extract_pricing_standalone_example :
  prices <$> @extract_pricing insertion_order "From 1,200 users: 49/year or 120 once"
  = Some (["$120"; "$200"; "$49/year"] : list str).
Proof. by vm_compute. Qed.

Example categorize_social_links_example :
  categorize_social_links
    ["https://x.com/acme"; "https://twitter.com/acme"; "https://www.LinkedIn.com/in/a"]
  = <["linkedin" := ("https://www.LinkedIn.com/in/a" : str)]>
      (<["twitter" := ("https://twitter.com/acme" : str)]> ∅).
Proof. by vm_compute. Qed.

Example filter_priority_pages_example :
  @filter_priority_pages insertion_order
    ["https://acme.test/About"; "https://acme.test/legal"; "https://acme.test/faq"]
  = ["https://acme.test/About"; "https://acme.test/faq"].
Proof. by vm_compute. Qed.

(** ** Strings: [in], [replace], [split], [strip] *)

Lemma startswith_app (p s : str) : startswith p (p ++ s) = true.
Proof. induction p as [|c p IH]; [by destruct s|]. simpl. by rewrite Ascii.eqb_refl. Qed.

Lemma startswith_inv (p s : str) :
  startswith p s = true → s = p ++ drop (length p) s.
Proof.
  revert s. induction p as [|c p IH]; intros [|x s]; simpl; try done.
  intros [->%Ascii.eqb_eq Hp]%andb_true_iff. f_equal. auto.
Qed.

Lemma contains_startswith (p s : str) :
  startswith p s = true → contains p s = true.
Proof. destruct s; simpl; by intros ->. Qed.

(** [needle in hay] holds exactly when [hay] has [needle] as a piece. *)
Lemma contains_iff (needle hay : str) :
  contains needle hay = true ↔ ∃ pre post, hay = pre ++ needle ++ post.
Proof.
  split.
  - induction hay as [|c hay IH]; simpl.
    + rewrite orb_false_r. intros Hp%startswith_inv. by exists [], (drop (length needle) []).
    + intros [Hp%startswith_inv|(pre & post & ->)%IH]%orb_true_iff.
      * by exists [], (drop (length needle) (c :: hay)).
      * by exists (c :: pre), post.
  - intros (pre & post & ->). induction pre as [|c pre IH]; simpl.
    + apply contains_startswith, startswith_app.
    + by rewrite IH, orb_true_r.
Qed.

Lemma contains_trans (a b s : str) :
  contains a b = true → contains b s = true → contains a s = true.
Proof.
  rewrite !contains_iff. intros (p1 & q1 & ->) (p2 & q2 & ->).
  exists (p2 ++ p1), (q1 ++ q2). by rewrite <-!app_assoc.
Qed.

Lemma contains_char (c : ascii) (s : str) :
  contains [c] s = existsb (Ascii.eqb c) s.
Proof.
  induction s as [|x s IH]; [done|].
  simpl. by rewrite IH, andb_true_r.
Qed.

Lemma replace_from_skip (old new s : str) (n : nat) :
  n ≤ length s →
  replace_from old new s n = replace_from old new (drop n s) 0.
Proof.
  revert n. induction s as [|c s IH]; intros n Hn.
  - simpl in Hn. by assert (n = 0) as -> by lia.
  - destruct n as [|n]; [done|]. simpl in *. apply IH. lia.
Qed.

(** The equations of [replace], for a non-empty [old]. *)
Lemma replace_occurrence (old new s : str) :
  old ≠ [] → replace old new (old ++ s) = new ++ replace old new s.
Proof.
  destruct old as [|c old]; [done|]. intros _. unfold replace.
  change ((c :: old) ++ s) with (c :: (old ++ s)).
  cbn [replace_from]. change (c :: (old ++ s)) with ((c :: old) ++ s).
  rewrite startswith_app. f_equal. simpl.
  rewrite replace_from_skip by (rewrite length_app; lia).
  by rewrite drop_app_length.
Qed.

Lemma replace_other (old new : str) (c : ascii) (s : str) :
  startswith old (c :: s) = false →
  replace old new (c :: s) = c :: replace old new s.
Proof. unfold replace. cbn [replace_from]. by intros ->. Qed.

(** Induction along the way [replace] reads its argument. *)
Lemma replace_induction (old new : str) (P : str → str → Prop) :
  old ≠ [] →
  P [] [] →
  (∀ s r, P s r → P (old ++ s) (new ++ r)) →
  (∀ c s r, startswith old (c :: s) = false → P s r → P (c :: s) (c :: r)) →
  ∀ s, P s (replace old new s).
Proof.
  intros Hold Hnil Hocc Hother s.
  remember (length s) as n eqn:Hn. revert s Hn.
  induction (lt_wf n) as [n _ IH]. intros s ->.
  destruct s as [|c s]; [done|].
  destruct (startswith old (c :: s)) eqn:Hp.
  - apply startswith_inv in Hp. rewrite Hp, replace_occurrence by done.
    apply Hocc, (IH (length (drop (length old) (c :: s)))); [|done].
    rewrite length_drop. destruct old; [done|]. simpl. lia.
  - rewrite replace_other by done. apply Hother; [done|].
    apply (IH (length s)); [simpl; lia|done].
Qed.

(** A replacement that puts back as many characters of a kind as it removes
    preserves the characters of that kind. *)
Lemma filter_replace (p : ascii → bool) (old new s : str) :
  old ≠ [] → List.filter p old = List.filter p new →
  List.filter p (replace old new s) = List.filter p s.
Proof.
  intros Hold Heq. apply (replace_induction old new); [done|done|..].
  - intros s' r IH. by rewrite !List.filter_app, IH, Heq.
  - intros c s' r _ IH. simpl. by rewrite IH.
Qed.

Lemma existsb_filter (p : ascii → bool) (s : str) :
  existsb p s = negb (bool_decide (List.filter p s = [])).
Proof.
  induction s as [|c s IH]; [done|]. simpl. destruct (p c); [done|]. by rewrite IH.
Qed.

Lemma contains_char_replace (c : ascii) (old new s : str) :
  old ≠ [] → List.filter (Ascii.eqb c) old = List.filter (Ascii.eqb c) new →
  contains [c] (replace old new s) = contains [c] s.
Proof.
  intros. by rewrite !contains_char, !existsb_filter, filter_replace.
Qed.

(** Without an occurrence of [old] nothing is replaced. *)
Lemma replace_absent (old new s : str) :
  old ≠ [] → contains old s = false → replace old new s = s.
Proof.
  intros Hold.
  apply (replace_induction old new (λ s r, contains old s = false → r = s));
    [done|done|..].
  - intros s' r _ Habs.
    by rewrite (contains_startswith _ _ (startswith_app old s')) in Habs.
  - intros c s' r _ IH Habs. simpl in Habs.
    apply orb_false_iff in Habs as [_ Habs]. by rewrite IH.
Qed.

Lemma split_nonempty (sep : ascii) (s : str) : split sep s ≠ [].
Proof.
  destruct s as [|c s]; [done|]. simpl.
  destruct (Ascii.eqb c sep); [done|]. by destruct (split sep s).
Qed.

(** [split] yields more than one segment exactly when the separator
    occurs. *)
Lemma split_several (sep : ascii) (s : str) :
  (1 <? length (split sep s)) = contains [sep] s.
Proof.
  rewrite contains_char. induction s as [|c s IH]; [done|]. simpl.
  rewrite (Ascii.eqb_sym sep c). destruct (Ascii.eqb c sep); simpl.
  - pose proof (split_nonempty sep s). by destruct (split sep s).
  - pose proof (split_nonempty sep s). destruct (split sep s) as [|seg segs]; [done|].
    done.
Qed.

Lemma split_absent (sep : ascii) (s : str) :
  contains [sep] s = false → split sep s = [s].
Proof.
  rewrite contains_char. induction s as [|c s IH]; [done|]. simpl.
  rewrite (Ascii.eqb_sym sep c).
  intros [-> Hs]%orb_false_iff. by rewrite (IH Hs).
Qed.

Lemma last_part_fmap (f : str → str) (parts : list str) :
  f [] = [] → last_part (f <$> parts) = f (last_part parts).
Proof.
  intros Hf. unfold last_part. induction parts as [|p [|q parts] IH]; [done|done|].
  exact IH.
Qed.

(** ** The matcher against a declarative reading of patterns *)

(** [matches r b m a]: the pattern [r] matches the text [m] when [m] is
    preceded by [b] (nearest character first) and followed by [a]. *)
Inductive matches : regex → str → str → str → Prop :=
| M_eps b a : matches Eps b [] a
| M_cls p c b a : p c = true → matches (Cls p) b [c] a
| M_cat r1 r2 b m1 m2 a :
    matches r1 b m1 (m2 ++ a) → matches r2 (rev m1 ++ b) m2 a →
    matches (Cat r1 r2) b (m1 ++ m2) a
| M_alt_l r1 r2 b m a : matches r1 b m a → matches (Alt r1 r2) b m a
| M_alt_r r1 r2 b m a : matches r2 b m a → matches (Alt r1 r2) b m a
| M_opt_some r b m a : matches r b m a → matches (Opt r) b m a
| M_opt_none r b a : matches (Opt r) b [] a
| M_rep p lo hi b m a :
    forallb p m = true → lo ≤ length m → (∀ n, hi = Some n → length m ≤ n) →
    matches (Rep p lo hi) b m a
| M_not_behind p b a :
    match b with c :: _ => p c = false | [] => True end →
    matches (NotBehind p) b [] a
| M_not_ahead p b a :
    match a with c :: _ => p c = false | [] => True end →
    matches (NotAhead p) b [] a
| M_word_b b a :
    xorb (word_before (Cursor b a)) (word_after (Cursor b a)) = true →
    matches WordB b [] a
| M_bos a : matches Bos [] [] a
| M_eos b a : a = [] ∨ a = ["010"%char] → matches Eos b [] a.

Lemma rep_sound p lo hi b a k e :
  rep p lo hi b a k = Some e →
  ∃ m a', a = m ++ a' ∧ matches (Rep p lo hi) b m a'
          ∧ k (Cursor (rev m ++ b) a') = Some e.
Proof.
  revert lo hi b. induction a as [|c a IH]; intros lo hi b; simpl.
  - destruct lo; [|done]. intros Hk. exists [], []. split_and!; [done| |done].
    constructor; simpl; [done|lia|lia].
  - assert (Hstop : match lo with 0 => k (Cursor b (c :: a)) | S _ => None end = Some e →
        ∃ m a', c :: a = m ++ a' ∧ matches (Rep p lo hi) b m a'
                ∧ k (Cursor (rev m ++ b) a') = Some e).
    { destruct lo; [|done]. intros Hk. exists [], (c :: a). split_and!; [done| |done].
      constructor; simpl; [done|lia|lia]. }
    destruct (p c) eqn:Hc; simpl; [|done].
    destruct (may_take hi) eqn:Hhi; [|done].
    destruct (rep p (pred lo) (pred <$> hi) (c :: b) a k) as [e'|] eqn:Hrep; [|done].
    intros [= ->]. apply IH in Hrep as (m & a' & -> & Hm & Hk).
    exists (c :: m), a'. split_and!; [done| |by simpl; rewrite <-app_assoc].
    inversion Hm; subst. constructor; simpl.
    + by rewrite Hc.
    + lia.
    + intros n ->. destruct n; [done|]. simpl in *.
      match goal with H : ∀ _, _ → _ |- _ => specialize (H n eq_refl) end. lia.
Qed.

(** Every result of the matcher is a match in the declarative sense. *)
Lemma bt_sound r b a k e :
  bt r (Cursor b a) k = Some e →
  ∃ m a', a = m ++ a' ∧ matches r b m a' ∧ k (Cursor (rev m ++ b) a') = Some e.
Proof.
  revert b a k e.
  induction r as [|p|r1 IH1 r2 IH2|r1 IH1 r2 IH2|r IH|p lo hi|p|p| | |];
    intros b a k e; simpl.
  - intros Hk. exists [], a. split_and!; [done|constructor|done].
  - destruct a as [|c a]; [done|]. destruct (p c) eqn:Hc; [|done].
    intros Hk. exists [c], a. split_and!; [done|by constructor|done].
  - intros H1. apply IH1 in H1 as (m1 & a1 & -> & Hm1 & H2).
    apply IH2 in H2 as (m2 & a2 & -> & Hm2 & Hk).
    exists (m1 ++ m2), a2. split_and!; [by rewrite app_assoc|by constructor|].
    by rewrite rev_app_distr, <-app_assoc.
  - destruct (bt r1 (Cursor b a) k) as [e1|] eqn:H1.
    + intros [= ->]. apply IH1 in H1 as (m & a' & -> & Hm & Hk).
      exists m, a'. split_and!; [done|by apply M_alt_l|done].
    + intros H2. apply IH2 in H2 as (m & a' & -> & Hm & Hk).
      exists m, a'. split_and!; [done|by apply M_alt_r|done].
  - destruct (bt r (Cursor b a) k) as [e1|] eqn:H1.
    + intros [= ->]. apply IH in H1 as (m & a' & -> & Hm & Hk).
      exists m, a'. split_and!; [done|by apply M_opt_some|done].
    + intros Hk. exists [], a. split_and!; [done|apply M_opt_none|done].
  - apply rep_sound.
  - intros Hk. exists [], a. destruct b as [|c b].
    + split_and!; [done|by constructor|done].
    + destruct (p c) eqn:Hc; [done|]. split_and!; [done|by constructor|done].
  - intros Hk. exists [], a. destruct a as [|c a].
    + split_and!; [done|by constructor|done].
    + destruct (p c) eqn:Hc; [done|]. split_and!; [done|by constructor|done].
  - destruct (xorb _ _) eqn:Hx; [|done]. intros Hk.
    exists [], a. split_and!; [done|by constructor|done].
  - destruct b; [|done]. intros Hk. exists [], a.
    split_and!; [done|constructor|done].
  - intros Hk. exists [], a.
    destruct a as [|c [|c' a]]; [| |done].
    + split_and!; [done|constructor; by left|done].
    + destruct (Ascii.eqb_spec c "010"%char) as [->|]; [|done].
      split_and!; [done|constructor; by right|done].
Qed.

Lemma match_at_sound r b a e :
  match_at r (Cursor b a) = Some e →
  ∃ m a', a = m ++ a' ∧ matches r b m a' ∧ e = Cursor (rev m ++ b) a'.
Proof.
  intros (m & a' & -> & Hm & [= <-])%bt_sound. by exists m, a'.
Qed.

(** Every string returned by [findall] is a piece of the text at which the
    pattern matches. *)
Lemma scan_sound r a b skip x :
  x ∈ scan r b a skip →
  ∃ pre post, a = pre ++ x ++ post ∧ matches r (rev pre ++ b) x post.
Proof.
  revert b skip. induction a as [|c a IH]; intros b skip; simpl.
  - destruct skip; [|by intros ?%elem_of_nil].
    destruct (match_at r (Cursor b [])) as [e|] eqn:He; [|by intros ?%elem_of_nil].
    intros ->%list_elem_of_singleton.
    apply match_at_sound in He as (m & a' & Heq & Hm & _).
    symmetry in Heq. apply app_eq_nil in Heq as [-> ->]. by exists [], [].
  - assert (Hnext : ∀ n, x ∈ scan r (c :: b) a n →
        ∃ pre post, c :: a = pre ++ x ++ post ∧ matches r (rev pre ++ b) x post).
    { intros n (pre & post & -> & Hm)%IH. exists (c :: pre), post.
      split; [done|]. simpl. by rewrite <-app_assoc. }
    destruct skip as [|n]; [|by apply Hnext].
    destruct (match_at r (Cursor b (c :: a))) as [e|] eqn:He; [|by apply Hnext].
    intros [->|Hx]%elem_of_cons; [|by eapply Hnext].
    apply match_at_sound in He as (m & a' & Heq & Hm & ->).
    exists [], a'. rewrite Heq. unfold span. simpl.
    rewrite length_app, Nat.add_sub, take_app_length. done.
Qed.

Lemma findall_sound r text x :
  x ∈ findall r text →
  ∃ pre post, text = pre ++ x ++ post ∧ matches r (rev pre) x post.
Proof.
  intros (pre & post & -> & Hm)%scan_sound. exists pre, post.
  by rewrite app_nil_r in Hm.
Qed.

Lemma rep_complete p lo hi b m a k e :
  forallb p m = true → lo ≤ length m → (∀ n, hi = Some n → length m ≤ n) →
  k (Cursor (rev m ++ b) a) = Some e →
  is_Some (rep p lo hi b (m ++ a) k).
Proof.
  revert lo hi b. induction m as [|c m IH]; intros lo hi b Hp Hlo Hhi Hk.
  - simpl in *. assert (lo = 0) as -> by lia.
    destruct a as [|c a]; simpl; [by eauto|].
    destruct (p c && may_take hi); [|by eauto].
    destruct (rep p 0 (pred <$> hi) (c :: b) a k); eauto.
  - simpl in *. apply andb_true_iff in Hp as [-> Hp]. simpl.
    assert (may_take hi = true) as ->.
    { destruct hi as [[|n]|]; try done. specialize (Hhi 0 eq_refl). lia. }
    rewrite <-app_assoc in Hk.
    destruct (IH (pred lo) (pred <$> hi) (c :: b)) as [e' ->]; [done|lia| |done|by eauto].
    intros n Hn. destruct hi as [h|]; [|done]. injection Hn as <-.
    specialize (Hhi h eq_refl). lia.
Qed.

(** The matcher finds a match whenever there is one that the continuation
    accepts. *)
Lemma bt_complete r b m a k e :
  matches r b m a → k (Cursor (rev m ++ b) a) = Some e →
  is_Some (bt r (Cursor b (m ++ a)) k).
Proof.
  intros Hm. revert k e.
  induction Hm as [b a|p c b a Hc|r1 r2 b m1 m2 a _ IH1 _ IH2|r1 r2 b m a _ IH
                  |r1 r2 b m a _ IH|r b m a _ IH|r b a|p lo hi b m a Hp Hlo Hhi
                  |p b a Hb|p b a Ha|b a Hw|a|b a Ha]; intros k e Hk; simpl in *.
  - eauto.
  - rewrite Hc. eauto.
  - rewrite rev_app_distr, <-app_assoc in Hk.
    destruct (IH2 k e Hk) as [e2 He2]. rewrite <-app_assoc.
    by apply (IH1 (λ z', bt r2 z' k) e2).
  - destruct (IH k e Hk) as [e1 ->]. eauto.
  - destruct (bt r1 (Cursor b (m ++ a)) k); [eauto|]. eauto.
  - destruct (IH k e Hk) as [e1 ->]. eauto.
  - destruct (bt r (Cursor b a) k); eauto.
  - eauto using rep_complete.
  - destruct b as [|c b]; [eauto|]. rewrite Hb. eauto.
  - destruct a as [|c a]; [eauto|]. rewrite Ha. eauto.
  - unfold word_before, word_after in *. simpl in *. rewrite Hw. eauto.
  - eauto.
  - destruct Ha as [->| ->]; simpl; eauto.
Qed.

(** [findall] returns nothing exactly when the pattern matches at no place
    of the text. *)
Lemma scan_nil r a b :
  scan r b a 0 = [] →
  ∀ pre m post, a = pre ++ m ++ post → ¬ matches r (rev pre ++ b) m post.
Proof.
  revert b. induction a as [|c a IH]; intros b Hscan pre m post Heq Hm.
  - symmetry in Heq. apply app_eq_nil in Heq as [-> [-> ->]%app_eq_nil].
    simpl in *. unfold match_at in Hscan.
    destruct (bt_complete r b [] [] Some _ Hm eq_refl) as [e He].
    simpl in He. by rewrite He in Hscan.
  - simpl in Hscan. destruct (match_at r (Cursor b (c :: a))) as [e|] eqn:He; [done|].
    destruct pre as [|x pre]; simpl in *.
    + destruct (bt_complete r b m post Some _ Hm eq_refl) as [e' He'].
      unfold match_at in He. rewrite <-Heq in He'. congruence.
    + injection Heq as <- ->. apply (IH (c :: b) Hscan pre m post eq_refl).
      by rewrite <-app_assoc in Hm.
Qed.

Lemma findall_nil_iff r text :
  findall r text = [] ↔
  ∀ pre m post, text = pre ++ m ++ post → ¬ matches r (rev pre) m post.
Proof.
  split.
  - intros Hnil pre m post Heq Hm. apply (scan_nil r text [] Hnil pre m post Heq).
    by rewrite app_nil_r.
  - intros Hnone. destruct (findall r text) as [|x l] eqn:Hx; [done|].
    assert (x ∈ findall r text) as (pre & post & Heq & Hm)%findall_sound
      by (rewrite Hx; left).
    by destruct (Hnone pre x post Heq).
Qed.

Ltac inverts H := inversion H; subst; clear H.

(** Inversion of [matches] on the pattern constructors that carry text. *)
Lemma matches_cat r1 r2 b m a :
  matches (Cat r1 r2) b m a →
  ∃ m1 m2, m = m1 ++ m2 ∧ matches r1 b m1 (m2 ++ a) ∧ matches r2 (rev m1 ++ b) m2 a.
Proof. intros Hm. inverts Hm. eauto. Qed.

Lemma matches_cls p b m a :
  matches (Cls p) b m a → ∃ c, m = [c] ∧ p c = true.
Proof. intros Hm. inverts Hm. eauto. Qed.

Lemma matches_chr c b m a : matches (chr c) b m a → m = [c].
Proof. intros (c' & -> & ->%Ascii.eqb_eq)%matches_cls. done. Qed.

Lemma matches_rep p lo hi b m a :
  matches (Rep p lo hi) b m a →
  forallb p m = true ∧ lo ≤ length m ∧ ∀ n, hi = Some n → length m ≤ n.
Proof. intros Hm. inverts Hm. eauto. Qed.

Lemma matches_opt r b m a :
  matches (Opt r) b m a → m = [] ∨ matches r b m a.
Proof. intros Hm. inverts Hm; eauto. Qed.

Lemma matches_lit s b m a : matches (lit s) b m a → m = s.
Proof.
  revert b m. induction s as [|c s IH]; intros b m Hm; simpl in Hm.
  - by inverts Hm.
  - apply matches_cat in Hm as (m1 & m2 & -> & ->%matches_chr & ->%IH). done.
Qed.

(** ** Emails (utils.py, [extract_emails]) *)

(** A token [local@domain.tld]. *)
Definition email_shape (e : str) : Prop :=
  ∃ loc dom tld : str,
    e = loc ++ "@" ++ dom ++ "." ++ tld
    ∧ loc ≠ [] ∧ forallb email_local loc = true
    ∧ dom ≠ [] ∧ forallb email_domain dom = true
    ∧ 2 ≤ length tld ∧ forallb is_alpha tld = true.

Lemma length_pos_ne_nil {A} (l : list A) : 1 ≤ length l → l ≠ [].
Proof. destruct l; simpl; [lia|done]. Qed.

Lemma email_pattern_shape b m a : matches email_pattern b m a → email_shape m.
Proof.
  unfold email_pattern, plus. intros Hm.
  apply matches_cat in Hm as (loc & ? & -> & (Hloc & Hn1 & _)%matches_rep & Hm).
  apply matches_cat in Hm as (? & ? & -> & ->%matches_chr & Hm).
  apply matches_cat in Hm as (dom & ? & -> & (Hdom & Hn2 & _)%matches_rep & Hm).
  apply matches_cat in Hm as (? & tld & -> & ->%matches_chr & (Htld & Hn3 & _)%matches_rep).
  exists loc, dom, tld. split_and!; auto using length_pos_ne_nil.
Qed.

(** What holds of [extract_emails] on every text and under every iteration
    order of sets. *)
Lemma extract_emails_tokens `{SetOrder} (text : str) :
  NoDup (extract_emails text)
  ∧ (∀ e, e ∈ extract_emails text ↔ e ∈ findall email_pattern text)
  ∧ (∀ e, e ∈ extract_emails text →
       email_shape e ∧ ∃ pre post, text = pre ++ e ++ post).
Proof.
  unfold extract_emails. split_and!.
  - apply list_of_set_NoDup.
  - intros e. apply list_of_set_elem.
  - intros e (pre & post & -> & Hm)%list_of_set_elem%findall_sound.
    eauto using email_pattern_shape.
Qed.

Lemma list_of_set_nil `{SetOrder} : list_of_set [] = [].
Proof.
  destruct (list_of_set []) as [|x l] eqn:Hl; [done|].
  assert (x ∈ list_of_set []) as Hx by (rewrite Hl; left).
  by apply list_of_set_elem, elem_of_nil in Hx.
Qed.

(** The text of the example as the specification prints it: the addresses
    are masked and the text holds no [@]. *)
Definition masked_example : str :=
  "Contact us at [email protected] or [email protected]".

Definition plain_example : str :=
  "Contact us at info@example.com or sales@example.org".

(** C8, as stated, fails: on the example text the extractor finds nothing,
    so the result is not the set that holds ["[email protected]"]. *)
Lemma extract_emails_masked_example_empty :
  @extract_emails insertion_order masked_example = []
  ∧ ¬ (∀ e : str, e ∈ @extract_emails insertion_order masked_example
                  ↔ e ∈ (["[email protected]"; "[email protected]"] : list str)).
Proof.
  assert (@extract_emails insertion_order masked_example = []) as Hnil
    by (vm_compute; reflexivity).
  split; [done|]. rewrite Hnil. intros Hiff.
  eapply elem_of_nil, Hiff. left.
Qed.

(** C8 (amended). Under every iteration order, [extract_emails] returns
    without repetition the strings found by the pattern; each is a piece of
    the text of the shape [local@domain.tld], with a non-empty local part
    over letters, digits and [._%+-], a non-empty domain over letters, digits
    and [.-], and a final label of at least two letters.  On the example text
    as printed (masked addresses, no [@]) the result is empty; on the same
    sentence with the addresses [info@example.com] and [sales@example.org]
    the result is, as a set, exactly these two. *)
Theorem extract_emails_spec `{SetOrder} (text : str) :
  (NoDup (extract_emails text)
   ∧ (∀ e, e ∈ extract_emails text ↔ e ∈ findall email_pattern text)
   ∧ (∀ e, e ∈ extract_emails text →
        email_shape e ∧ ∃ pre post, text = pre ++ e ++ post))
  ∧ extract_emails masked_example = []
  ∧ (∀ e : str, e ∈ extract_emails plain_example
                ↔ e ∈ (["info@example.com"; "sales@example.org"] : list str)).
Proof.
  split; [apply extract_emails_tokens|]. unfold extract_emails. split.
  - replace (findall email_pattern masked_example) with (@nil str)
      by (vm_compute; reflexivity).
    apply list_of_set_nil.
  - intros e. rewrite list_of_set_elem.
    replace (findall email_pattern plain_example)
      with (["info@example.com"; "sales@example.org"] : list str)
      by (vm_compute; reflexivity).
    done.
Qed.

(** ** Phones (utils.py, [extract_phones]) *)

(** Facts about single characters, by enumeration of the 256 bytes. *)
Ltac by_cases_on_char c :=
  destruct c as [[] [] [] [] [] [] [] []]; vm_compute; intuition congruence.

Lemma digit_not_space c : is_digit c = true → is_space c = false.
Proof. by_cases_on_char c. Qed.

Lemma digit_not_plus c : is_digit c = true → Ascii.eqb c "+" = false.
Proof. by_cases_on_char c. Qed.

Lemma phone_sep_dropped c :
  phone_sep c = true → is_digit c = false ∧ Ascii.eqb c "+" = false.
Proof. by_cases_on_char c. Qed.

(** The digits and [+] signs of a string, in order. *)
Definition digits_and_plus (m : str) : str :=
  List.filter (λ c, is_digit c || Ascii.eqb c "+") m.

Lemma span_cons c (a : str) b : span (c :: a) (Cursor b a) = 1.
Proof. unfold span. simpl. lia. Qed.

(** Substituting the empty string for every character of a class deletes
    these characters. *)
Lemma sub_cls_deletes p (a b : str) :
  sub_from (Cls p) [] b a 0 = List.filter (λ c, negb (p c)) a.
Proof.
  revert b. induction a as [|c a IH]; intros b; [done|].
  simpl. unfold match_at. simpl. destruct (p c); simpl.
  - rewrite span_cons. apply IH.
  - f_equal. apply IH.
Qed.

Lemma cleaned_digits_and_plus m : cleaned m = digits_and_plus m.
Proof.
  unfold cleaned, sub, digits_and_plus. rewrite sub_cls_deletes.
  apply List.filter_ext. intros c. unfold not_digit_plus. by rewrite negb_involutive.
Qed.

(** [^\d{1,4}$] accepts at most four digits and a final newline. *)
Lemma short_numeral_length c : re_match short_numeral c = true → length c ≤ 5.
Proof.
  unfold re_match. intros [e He]%bool_decide_eq_true.
  apply match_at_sound in He as (m & a' & -> & Hm & _).
  apply matches_cat in Hm as (m0 & ? & -> & Hbos & Hm). inverts Hbos.
  apply matches_cat in Hm as (d & ? & -> & (_ & _ & Hd)%matches_rep & Heos).
  inverts Heos. specialize (Hd 4 eq_refl). rewrite !length_app. simpl.
  match goal with H : _ ∨ _ |- _ => destruct H as [->| ->] end; simpl; lia.
Qed.

Definition digit_group (lo hi : nat) (d : str) : Prop :=
  forallb is_digit d = true ∧ lo ≤ length d ≤ hi.

Definition optional (P : str → Prop) (s : str) : Prop := s = [] ∨ P s.

Definition separator (s : str) : Prop := ∃ c, s = [c] ∧ phone_sep c = true.

Definition country_code (s : str) : Prop :=
  ∃ d sep, s = "+" ++ d ++ sep ∧ digit_group 1 3 d ∧ optional separator sep.

(** The strings the phone pattern can match: an optional country code
    ([+], one to three digits, an optional separator), an optional opening
    parenthesis, two to four digits, an optional closing parenthesis, an
    optional separator, two to four digits, an optional separator, and a
    final group of exactly four digits. *)
Definition phone_shape (m : str) : Prop :=
  ∃ cc op d1 cl s1 d2 s2 d3 : str,
    m = cc ++ op ++ d1 ++ cl ++ s1 ++ d2 ++ s2 ++ d3
    ∧ optional country_code cc
    ∧ optional (eq ("(" : str)) op
    ∧ digit_group 2 4 d1
    ∧ optional (eq (")" : str)) cl
    ∧ optional separator s1
    ∧ digit_group 2 4 d2
    ∧ optional separator s2
    ∧ digit_group 4 4 d3.

Lemma matches_digits lo hi b m a :
  matches (Rep is_digit lo (Some hi)) b m a → digit_group lo hi m.
Proof. intros (? & ? & Hhi)%matches_rep. split; [done|]. split; eauto. Qed.

Lemma matches_opt_sep b m a :
  matches (Opt (Cls phone_sep)) b m a → optional separator m.
Proof.
  intros [->|(c & -> & Hc)%matches_cls]%matches_opt; [by left|].
  right. by exists c.
Qed.

Lemma matches_opt_chr c b m a :
  matches (Opt (chr c)) b m a → optional (eq [c]) m.
Proof. intros [->| ->%matches_chr]%matches_opt; [by left|by right]. Qed.

Lemma phone_pattern_shape b m a : matches phone_pattern b m a → phone_shape m.
Proof.
  unfold phone_pattern. intros Hm.
  apply matches_cat in Hm as (cc & ? & -> & Hcc & Hm).
  apply matches_cat in Hm as (op & ? & -> & Hop%matches_opt_chr & Hm).
  apply matches_cat in Hm as (d1 & ? & -> & Hd1%matches_digits & Hm).
  apply matches_cat in Hm as (cl & ? & -> & Hcl%matches_opt_chr & Hm).
  apply matches_cat in Hm as (s1 & ? & -> & Hs1%matches_opt_sep & Hm).
  apply matches_cat in Hm as (d2 & ? & -> & Hd2%matches_digits & Hm).
  apply matches_cat in Hm as (s2 & d3 & -> & Hs2%matches_opt_sep & Hd3%matches_digits).
  exists cc, op, d1, cl, s1, d2, s2, d3. split_and!; try done.
  apply matches_opt in Hcc as [->|Hcc]; [by left|]. right.
  apply matches_cat in Hcc as (? & ? & -> & ->%matches_chr & Hcc).
  apply matches_cat in Hcc as (d & sep & -> & Hd%matches_digits & Hsep%matches_opt_sep).
  by exists d, sep.
Qed.

Lemma strip_id (m : str) :
  (∀ c s, m = c :: s → is_space c = false) →
  (∀ c s, m = s ++ [c] → is_space c = false) →
  strip m = m.
Proof.
  intros Hfirst Hlast. unfold strip, rstrip, lstrip.
  assert (drop_while is_space m = m) as ->.
  { destruct m as [|c s]; [done|]. simpl. by rewrite (Hfirst c s). }
  destruct (rev m) as [|c r] eqn:Hrev.
  - apply (f_equal (@rev _)) in Hrev. by rewrite rev_involutive in Hrev.
  - simpl. rewrite (Hlast c (rev r)).
    + by rewrite <-Hrev, rev_involutive.
    + by rewrite <-(rev_involutive m), Hrev.
Qed.

Lemma digit_group_filter lo hi d :
  digit_group lo hi d → List.filter is_digit d = d ∧ digits_and_plus d = d.
Proof.
  intros [Hd _]. unfold digits_and_plus.
  induction d as [|c d IH]; [done|]. simpl in *.
  apply andb_true_iff in Hd as [Hc Hd]. rewrite Hc. simpl.
  destruct (IH Hd) as [-> ->]. done.
Qed.

Lemma separator_filter s :
  optional separator s → List.filter is_digit s = [] ∧ digits_and_plus s = [].
Proof.
  intros [->|(c & -> & [Hd Hp]%phone_sep_dropped)]; [done|].
  unfold digits_and_plus. simpl. by rewrite Hd, Hp.
Qed.

Lemma paren_filter (c : ascii) s :
  is_digit c = false → Ascii.eqb c "+" = false →
  optional (eq [c]) s → List.filter is_digit s = [] ∧ digits_and_plus s = [].
Proof.
  intros Hd Hp [->| <-]; [done|]. unfold digits_and_plus. simpl. by rewrite Hd, Hp.
Qed.

Lemma country_code_filter cc :
  optional country_code cc →
  (cc = [] ∨ ∃ s, cc = "+" ++ s)
  ∧ digits_and_plus cc = (if startswith "+" cc then "+" else []) ++ List.filter is_digit cc.
Proof.
  intros [->|(d & sep & -> & Hd & Hsep)]; [split; [by left|done]|].
  split; [right; by eexists|].
  destruct (digit_group_filter _ _ _ Hd) as [Hd1 Hd2].
  destruct (separator_filter _ Hsep) as [Hs1 Hs2].
  unfold digits_and_plus in *. simpl.
  by rewrite !List.filter_app, Hd1, Hd2, Hs1, Hs2.
Qed.

Lemma digits_and_plus_app a b :
  digits_and_plus (a ++ b) = digits_and_plus a ++ digits_and_plus b.
Proof. apply List.filter_app. Qed.

Lemma startswith_plus_digit c (s : str) :
  is_digit c = true → startswith "+" (c :: s) = false.
Proof.
  intros Hc%digit_not_plus.
  change (startswith "+" (c :: s)) with (Ascii.eqb "+" c && true).
  by rewrite Ascii.eqb_sym, Hc.
Qed.

Section PhoneShape.

Variable m : str.
Hypothesis Hshape : phone_shape m.

(** A match holds at least eight digits. *)
Lemma phone_shape_digits : 8 ≤ length (List.filter is_digit m).
Proof.
  destruct Hshape as (cc & op & d1 & cl & s1 & d2 & s2 & d3 & -> & _ & _
                      & Hd1 & _ & _ & Hd2 & _ & Hd3).
  rewrite !List.filter_app, !length_app.
  rewrite (proj1 (digit_group_filter _ _ _ Hd1)),
    (proj1 (digit_group_filter _ _ _ Hd2)), (proj1 (digit_group_filter _ _ _ Hd3)).
  destruct Hd1 as [_ ?], Hd2 as [_ ?], Hd3 as [_ ?]. lia.
Qed.

(** The only [+] of a match is a leading one. *)
Lemma phone_shape_cleaned :
  cleaned m = (if startswith "+" m then "+" else []) ++ List.filter is_digit m.
Proof.
  rewrite cleaned_digits_and_plus.
  destruct Hshape as (cc & op & d1 & cl & s1 & d2 & s2 & d3 & -> & Hcc & Hop
                      & Hd1 & Hcl & Hs1 & Hd2 & Hs2 & Hd3).
  rewrite !digits_and_plus_app, !List.filter_app.
  destruct (country_code_filter _ Hcc) as [Hhead ->].
  destruct (paren_filter "(" op eq_refl eq_refl Hop) as [-> ->].
  destruct (paren_filter ")" cl eq_refl eq_refl Hcl) as [-> ->].
  destruct (separator_filter _ Hs1) as [-> ->].
  destruct (separator_filter _ Hs2) as [-> ->].
  destruct (digit_group_filter _ _ _ Hd1) as [-> ->].
  destruct (digit_group_filter _ _ _ Hd2) as [-> ->].
  destruct (digit_group_filter _ _ _ Hd3) as [-> ->].
  rewrite <-!app_assoc. f_equal.
  destruct Hhead as [->|[s ->]]; [|done].
  destruct Hop as [->| <-]; [|done].
  destruct Hd1 as [Hd1 Hlen]. destruct d1 as [|c d1]; [simpl in Hlen; lia|].
  apply andb_true_iff in Hd1 as [Hc _].
  change ([] ++ [] ++ (c :: d1) ++ ?t) with (c :: d1 ++ t).
  by rewrite startswith_plus_digit.
Qed.

(** A match neither begins nor ends with white space: [strip] leaves it as
    it stands in the text. *)
Lemma phone_shape_strip : strip m = m.
Proof.
  destruct Hshape as (cc & op & d1 & cl & s1 & d2 & s2 & d3 & -> & Hcc & Hop
                      & Hd1 & Hcl & Hs1 & Hd2 & Hs2 & Hd3).
  apply strip_id.
  - intros c s Heq.
    destruct Hcc as [->|(d & sep & -> & _)]; [|by injection Heq as <-].
    destruct Hop as [->| <-]; [|by injection Heq as <-].
    destruct Hd1 as [Hd1 Hlen]. destruct d1 as [|c1 d1]; [simpl in Hlen; lia|].
    simpl in *. injection Heq as <- _.
    apply andb_true_iff in Hd1 as [Hc _]. by apply digit_not_space.
  - intros c s Heq. destruct Hd3 as [Hd3 Hlen].
    destruct d3 as [|c3 d3 _] using rev_ind; [simpl in Hlen; lia|].
    rewrite !app_assoc in Heq. apply app_inj_tail in Heq as [_ <-].
    rewrite forallb_app in Hd3. apply andb_true_iff in Hd3 as [_ Hc]. simpl in Hc.
    apply digit_not_space. by destruct (is_digit c3).
Qed.

End PhoneShape.

(** On a string of the phone shape the two length tests of the loop always
    pass, and [strip] changes nothing: the only thing that can keep a match
    out of the result is an earlier match with the same cleaned form. *)
Lemma phone_step_on_match (phones : list str) (seen : gset str) (m : str) :
  phone_shape m →
  phone_step (phones, seen) m
  = if bool_decide (cleaned m ∈ seen) then (phones, seen)
    else (phones ++ [m], {[ cleaned m ]} ∪ seen).
Proof.
  intros Hm. unfold phone_step.
  assert (8 ≤ length (cleaned m)) as Hlen.
  { rewrite phone_shape_cleaned, length_app by done.
    pose proof (phone_shape_digits m Hm). lia. }
  assert (re_match short_numeral (cleaned m) = false) as ->.
  { destruct (re_match _ _) eqn:Hre; [|done].
    apply short_numeral_length in Hre. lia. }
  rewrite phone_shape_strip by done.
  apply Nat.leb_le in Hlen as ->. simpl.
  by destruct (bool_decide (cleaned m ∈ seen)).
Qed.

Lemma phones_loop_invariant (ms : list str) :
  Forall phone_shape ms →
  let st := foldl phone_step ([], ∅) ms in
  (∀ c, c ∈ st.2 ↔ c ∈ cleaned <$> st.1)
  ∧ NoDup (cleaned <$> st.1)
  ∧ st.1 `sublist_of` ms
  ∧ (∀ m, m ∈ ms → cleaned m ∈ cleaned <$> st.1).
Proof.
  induction ms as [|m ms IH] using rev_ind; intros Hms; simpl.
  - split_and!; [|constructor|done|by intros ? ?%elem_of_nil].
    intros c. rewrite elem_of_empty. split; [done|by intros ?%elem_of_nil].
  - apply Forall_app in Hms as [Hms [Hm _]%Forall_cons].
    specialize (IH Hms). simpl in IH. rewrite foldl_app. simpl.
    destruct (foldl phone_step ([], ∅) ms) as [phones seen]. simpl in IH.
    destruct IH as (Hseen & Hnodup & Hsub & Hall).
    rewrite phone_step_on_match by done.
    case_bool_decide as Hin; simpl.
    + split_and!; [done|done|by apply sublist_inserts_r|].
      intros x [Hx| ->%list_elem_of_singleton]%elem_of_app; [eauto|].
      by apply Hseen.
    + rewrite fmap_app. simpl. split_and!.
      * intros c. rewrite elem_of_union, elem_of_singleton, elem_of_app,
          list_elem_of_singleton, Hseen. tauto.
      * apply NoDup_app. split_and!; [done| |apply NoDup_singleton].
        intros c Hc ->%list_elem_of_singleton. by apply Hin, Hseen.
      * by apply sublist_app.
      * intros x [Hx| ->%list_elem_of_singleton]%elem_of_app; apply elem_of_app;
          [left; eauto|right; by left].
Qed.

Lemma findall_phone_shapes (text : str) :
  Forall phone_shape (findall phone_pattern text).
Proof.
  apply Forall_forall. intros m (pre & post & _ & Hm)%findall_sound.
  eauto using phone_pattern_shape.
Qed.

Lemma extract_phones_loop (text : str) :
  extract_phones text = (foldl phone_step ([], ∅) (findall phone_pattern text)).1.
Proof. by destruct text. Qed.

Definition phone_example : str := "Call +1-555-123-4567 or (555) 987-6543".

(** C7. The phones returned are matches of the phone pattern (an optional
    country code, optional parentheses, [-], [.] or white space between the
    groups, a final group of four digits), taken verbatim from the text and in
    their order.  Their cleaned forms (the digits, after a leading [+] if
    there is one) are pairwise distinct, and every match of the pattern has
    its cleaned form among them: a match is left out only as a duplicate.  No
    entry has a cleaned form of fewer than 8 characters or one that is a bare
    numeral of 1 to 4 digits; in particular ["123"] is never returned.  On the
    example there are exactly two entries, with digits 15551234567 and
    5559876543, also when a bare 123 stands elsewhere in the text. *)
Theorem extract_phones_spec (text : str) :
  (extract_phones text `sublist_of` findall phone_pattern text
   ∧ NoDup (cleaned <$> extract_phones text)
   ∧ (∀ m, m ∈ findall phone_pattern text →
        cleaned m ∈ cleaned <$> extract_phones text)
   ∧ (∀ e, e ∈ extract_phones text →
        phone_shape e
        ∧ (∃ pre post, text = pre ++ e ++ post)
        ∧ cleaned e = (if startswith "+" e then "+" else []) ++ List.filter is_digit e
        ∧ 8 ≤ length (cleaned e)
        ∧ re_match short_numeral (cleaned e) = false
        ∧ e ≠ "123"))
  ∧ extract_phones phone_example = ["+1-555-123-4567"; "(555) 987-6543"]
  ∧ List.filter is_digit <$> extract_phones phone_example
    = (["15551234567"; "5559876543"] : list str)
  ∧ extract_phones (phone_example ++ ", room 123 or 123.")
    = ["+1-555-123-4567"; "(555) 987-6543"].
Proof.
  split; [|by vm_compute].
  rewrite extract_phones_loop.
  destruct (phones_loop_invariant _ (findall_phone_shapes text))
    as (_ & Hnodup & Hsub & Hall).
  split_and!; [done..|].
  intros e He.
  assert (e ∈ findall phone_pattern text) as Hcand
    by (eapply elem_of_sublist; done).
  destruct (findall_sound _ _ _ Hcand) as (pre & post & Htext & Hm).
  apply phone_pattern_shape in Hm.
  assert (8 ≤ length (cleaned e)) as Hlen.
  { rewrite phone_shape_cleaned, length_app by done.
    pose proof (phone_shape_digits e Hm). lia. }
  split_and!; [done|by eauto|by apply phone_shape_cleaned|done| |].
  - destruct (re_match _ _) eqn:Hre; [|done].
    apply short_numeral_length in Hre. lia.
  - intros ->. vm_compute in Hlen. lia.
Qed.

(** ** Social links (extractor.py, [categorize_social_links]) *)

(** The platforms in the order in which a link is tested against them, each
    with the substrings that select it. *)
Definition platform_markers : list (string * list str) :=
  [("linkedin", (["linkedin"] : list str));
   ("twitter", (["twitter"; "x.com"] : list str));
   ("facebook", (["facebook"] : list str));
   ("instagram", (["instagram"] : list str));
   ("youtube", (["youtube"] : list str))].

Definition platforms : gset string :=
  {[ "linkedin"; "twitter"; "facebook"; "instagram"; "youtube" ]}.

(** The bucket of a link: the first platform, in priority order, one of whose
    markers occurs in the lowercased link. *)
Definition platform_of (link : str) : option string :=
  fst <$> List.find (λ pm, existsb (λ m, contains m (lower link)) pm.2) platform_markers.

Lemma categorize_step_platform (socials : gmap string str) (link : str) :
  categorize_step socials link =
  match platform_of link with
  | Some p => <[p := link]> socials
  | None => socials
  end.
Proof.
  unfold categorize_step, platform_of, platform_markers. simpl.
  repeat (destruct (contains _ (lower link)); simpl; try reflexivity).
Qed.

Lemma platform_of_known (link : str) (p : string) :
  platform_of link = Some p → p ∈ platforms.
Proof.
  unfold platform_of, platform_markers, platforms. simpl.
  repeat (destruct (contains _ (lower link)); simpl;
          try (intros [= <-]; rewrite !elem_of_union, !elem_of_singleton; tauto)).
Qed.

Lemma is_social_link_platform (url : str) :
  is_social_link url = true → is_Some (platform_of url).
Proof.
  unfold is_social_link, SOCIAL_DOMAINS. simpl. rewrite orb_false_r.
  assert (Hpre : ∀ a b : str, contains a b = true →
            contains b (lower url) = true → contains a (lower url) = true)
    by eauto using contains_trans.
  intros Hsoc.
  assert (contains "linkedin" (lower url) = true
          ∨ contains "twitter" (lower url) = true
          ∨ contains "x.com" (lower url) = true
          ∨ contains "facebook" (lower url) = true
          ∨ contains "instagram" (lower url) = true
          ∨ contains "youtube" (lower url) = true) as Hany.
  { repeat (apply orb_true_iff in Hsoc as [Hsoc|Hsoc]);
      [ left | right; left | right; right; left | right; right; right; left
      | right; right; right; right; left | right; right; right; right; right ];
      (eapply Hpre; [|exact Hsoc]); reflexivity. }
  clear Hsoc Hpre. unfold platform_of, platform_markers. simpl.
  repeat (destruct (contains _ (lower url)); simpl; try (eexists; reflexivity)).
  destruct Hany as [?|[?|[?|[?|[?|?]]]]]; discriminate.
Qed.

Lemma categorize_snoc (links : list str) (link : str) :
  categorize_social_links (links ++ [link])
  = categorize_step (categorize_social_links links) link.
Proof. unfold categorize_social_links. by rewrite foldl_app. Qed.

(** C9. [categorize_social_links] goes through the links in input order,
    puts each link into the bucket of the first platform (in the order
    linkedin, twitter/x.com, facebook, instagram, youtube) whose marker occurs
    in it, and a later link replaces an earlier one of the same bucket: the
    mapping holds, for each platform, the last link of that platform. *)
Theorem categorize_social_links_last_wins (links : list str) (p : string) :
  categorize_social_links links !! p
  = last (List.filter (λ link, bool_decide (platform_of link = Some p)) links).
Proof.
  induction links as [|link links IH] using rev_ind; [done|].
  rewrite categorize_snoc, categorize_step_platform, List.filter_app. simpl.
  destruct (platform_of link) as [q|] eqn:Hq.
  - case_bool_decide as Hp.
    + injection Hp as ->. by rewrite lookup_insert_eq, last_snoc.
    + rewrite lookup_insert_ne by congruence. by rewrite app_nil_r.
  - rewrite bool_decide_eq_false_2 by done. by rewrite app_nil_r.
Qed.

Lemma categorize_dom (links : list str) :
  dom (categorize_social_links links) ⊆ platforms.
Proof.
  induction links as [|link links IH] using rev_ind.
  - unfold categorize_social_links. simpl. rewrite dom_empty_L. apply empty_subseteq.
  - rewrite categorize_snoc, categorize_step_platform.
    destruct (platform_of link) as [q|] eqn:Hq; [|done].
    apply platform_of_known in Hq. rewrite dom_insert_L.
    apply union_subseteq. split; [by apply singleton_subseteq_l|done].
Qed.

(** A bucket that is filled stays filled. *)
Lemma categorize_keeps_bucket (links : list str) (socials : gmap string str) (p : string) :
  is_Some (socials !! p) → is_Some (foldl categorize_step socials links !! p).
Proof.
  revert socials. induction links as [|link links IH]; intros socials Hp; [done|].
  simpl. apply IH. rewrite categorize_step_platform.
  destruct (platform_of link) as [q|]; [|done].
  destruct (decide (q = p)) as [->|Hq].
  - rewrite lookup_insert_eq. eauto.
  - by rewrite lookup_insert_ne.
Qed.

(** C10. A URL accepted by [is_social_link] has a bucket among the five
    platforms; when it is reached in the iteration it is stored in that
    bucket, and the bucket stays filled until the end.  The keys of the
    returned mapping are always among linkedin, twitter, facebook, instagram
    and youtube. *)
Theorem social_links_all_categorized (before after : list str) (url : str) :
  is_social_link url = true →
  (∃ p, p ∈ platforms
        ∧ platform_of url = Some p
        ∧ categorize_social_links (before ++ [url]) !! p = Some url
        ∧ is_Some (categorize_social_links (before ++ url :: after) !! p))
  ∧ dom (categorize_social_links (before ++ url :: after)) ⊆ platforms.
Proof.
  intros Hsoc. split; [|apply categorize_dom].
  destruct (is_social_link_platform url Hsoc) as [p Hp].
  exists p. split; [eauto using platform_of_known|]. split; [done|].
  assert (categorize_social_links (before ++ [url]) !! p = Some url) as Hput.
  { rewrite categorize_snoc, categorize_step_platform, Hp. apply lookup_insert_eq. }
  split; [done|].
  rewrite (cons_middle url before after), app_assoc.
  unfold categorize_social_links in *. rewrite foldl_app.
  apply categorize_keeps_bucket. by rewrite Hput.
Qed.

Lemma social_links_all_categorized_witness :
  let before : list str := ["https://twitter.com/old"] in
  let after : list str := ["/about"] in
  let url : str := "https://X.com/acme" in
  is_social_link url = true
  ∧ (∃ p, p ∈ platforms
        ∧ platform_of url = Some p
        ∧ categorize_social_links (before ++ [url]) !! p = Some url
        ∧ is_Some (categorize_social_links (before ++ url :: after) !! p)).
Proof.
  intros before after url. split; [reflexivity|].
  apply (social_links_all_categorized before after url). reflexivity.
Defined.

(** ** Identity (extractor.py, [extract_identity]) *)

(** The title after [replace(" | ", "|").replace(" - ", "-")]. *)
Definition tightened (title : str) : str :=
  replace " - " "-" (replace " | " "|" title).

Lemma tightened_pipe (t : str) : contains "|" (tightened t) = contains "|" t.
Proof.
  unfold tightened.
  change (String.list_ascii_of_string "|") with ["|"%char].
  by rewrite !contains_char_replace.
Qed.

(** The rule by which a non-empty title gives the name, stated on the title
    itself. *)
Lemma name_of_title_rule (t : str) :
  name_of_title t
  = if contains "|" t then strip (last_part (split "|" (tightened t)))
    else if contains "-" t then strip (last_part (split "-" t))
    else strip t.
Proof.
  unfold name_of_title. fold (tightened t).
  rewrite length_fmap, split_several, last_part_fmap by done.
  change (contains ["|"%char] (tightened t)) with (contains "|" (tightened t)).
  rewrite tightened_pipe. destruct (contains "|" t); [done|].
  by rewrite split_several.
Qed.

Lemma extract_identity_name `{Urllib} (soup : Soup) (url : str) :
  company_name (extract_identity soup url)
  = match title_string soup with
    | Some ((_ :: _) as t) => name_of_title t
    | _ => capitalize (domain_label (urlparse_netloc url))
    end.
Proof. unfold extract_identity. simpl. by destruct (title_string soup) as [[|]|]. Qed.

Lemma extract_identity_titled `{Urllib} (soup : Soup) (url t : str) :
  title_string soup = Some t → t ≠ [] →
  company_name (extract_identity soup url) = name_of_title t.
Proof. rewrite extract_identity_name. intros -> Ht. by destruct t. Qed.

Lemma extract_identity_untitled `{Urllib} (soup : Soup) (url : str) :
  title_string soup = None ∨ title_string soup = Some [] →
  company_name (extract_identity soup url)
  = capitalize (domain_label (urlparse_netloc url)).
Proof. rewrite extract_identity_name. by intros [-> | ->]. Qed.

(** A page whose title ends with a separator. *)
Definition trailing_pipe_soup : Soup :=
  {| soup_title := Some (Some ("Acme |" : str)); soup_h1 := None;
     soup_hrefs := []; soup_headings := []; soup_text := [] |}.

(** C5. [website] is the input URL, but [company_name] can be empty: on a
    page titled ["Acme |"] at [https://acme.test] the name is taken from the
    last [|]-segment of the title, which is blank, and the name prepared from
    the host, ["Acme"], is not used. *)
Lemma extract_identity_empty_name :
  let ident :=
    @extract_identity Canned.urllib trailing_pipe_soup "https://acme.test" in
  title_string trailing_pipe_soup = Some ("Acme |" : str)
  ∧ company_name ident = []
  ∧ website ident = "https://acme.test"
  ∧ capitalize (domain_label (@urlparse_netloc Canned.urllib "https://acme.test"))
    = "Acme".
Proof. vm_compute. by repeat split. Qed.

Lemma domain_label_www (host : str) :
  contains "www." host = false →
  domain_label ("www." ++ host) = hd [] (split "." host).
Proof.
  intros Habs. unfold domain_label.
  by rewrite (replace_occurrence "www." "" host), (replace_absent "www." "" host).
Qed.

Lemma domain_label_plain (netloc : str) :
  contains "www." netloc = false →
  domain_label netloc = hd [] (split "." netloc).
Proof. intros Habs. unfold domain_label. by rewrite replace_absent. Qed.

(** A page titled with a hyphenated name. *)
Definition hyphenated_soup : Soup :=
  {| soup_title := Some (Some ("Coca-Cola" : str)); soup_h1 := None;
     soup_hrefs := []; soup_headings := []; soup_text := [] |}.

(** C6, as stated, fails: a title with neither [" | "] nor [" - "] does
    not always give the full trimmed title, because the title is also split on
    a hyphen that has no spaces around it. *)
Lemma extract_identity_splits_bare_hyphen :
  contains " | " "Coca-Cola" = false
  ∧ contains " - " "Coca-Cola" = false
  ∧ company_name (@extract_identity Canned.urllib hyphenated_soup "https://acme.test")
    = "Cola"
  ∧ company_name (@extract_identity Canned.urllib hyphenated_soup "https://acme.test")
    ≠ strip "Coca-Cola".
Proof. by vm_compute. Qed.

(** C6 (amended). For a non-empty title the name is found as follows.  If
    the title contains a [|] (in particular if it contains [" | "]), every
    [" | "] is replaced by [|] and every [" - "] by [-], the result is split
    on [|], and the last segment, trimmed, is the name: pipes are preferred
    over hyphens.  Otherwise, if the title contains a [-] (in particular if it
    contains [" - "]), it is split on [-] and the last segment, trimmed, is
    the name.  A title with neither [|] nor [-] gives the full trimmed title.
    An absent, [None] or empty title gives the capitalized first dot-label of
    the host of the URL with a leading ["www."] removed, for hosts in which
    ["www."] occurs nowhere else. *)
Theorem extract_identity_name_rule `{Urllib} (soup : Soup) (url : str) :
  let name := company_name (extract_identity soup url) in
  (∀ t, title_string soup = Some t → t ≠ [] →
     name = (if contains "|" t then strip (last_part (split "|" (tightened t)))
             else if contains "-" t then strip (last_part (split "-" t))
             else strip t)
     ∧ (contains " | " t = true →
          name = strip (last_part (split "|" (tightened t))))
     ∧ (contains "|" t = false → contains " - " t = true →
          name = strip (last_part (split "-" t)))
     ∧ (contains "|" t = false → contains "-" t = false → name = strip t))
  ∧ (title_string soup = None ∨ title_string soup = Some [] →
     (∀ host, urlparse_netloc url = "www." ++ host → contains "www." host = false →
        name = capitalize (hd [] (split "." host)))
     ∧ (contains "www." (urlparse_netloc url) = false →
        name = capitalize (hd [] (split "." (urlparse_netloc url))))).
Proof.
  intros name. subst name. split.
  - intros t Ht Hne. rewrite (extract_identity_titled soup url t Ht Hne).
    rewrite name_of_title_rule. split_and!.
    + done.
    + intros Hpipe. by rewrite (contains_trans "|" " | " t).
    + intros -> Hhyph. by rewrite (contains_trans "-" " - " t).
    + by intros -> ->.
  - intros Htitle. rewrite extract_identity_untitled by done. split.
    + intros host -> Habs. by rewrite domain_label_www.
    + intros Habs. by rewrite domain_label_plain.
Qed.

Lemma extract_identity_name_rule_witness :
  title_string Canned.home_soup = Some ("Home | Acme Rockets" : str)
  ∧ ("Home | Acme Rockets" : str) ≠ []
  ∧ contains " | " "Home | Acme Rockets" = true
  ∧ company_name (@extract_identity Canned.urllib Canned.home_soup Canned.home)
    = strip (last_part (split "|" (tightened "Home | Acme Rockets")))
  ∧ (title_string Canned.contact_soup = None ∨ title_string Canned.contact_soup = Some [])
  ∧ @urlparse_netloc Canned.urllib "https://www.acme.test/contact" = "www." ++ "acme.test"
  ∧ contains "www." "acme.test" = false
  ∧ company_name (@extract_identity Canned.urllib Canned.contact_soup
                    "https://www.acme.test/contact")
    = capitalize (hd [] (split "." "acme.test")).
Proof.
  split; [reflexivity|]. split; [discriminate|]. split; [reflexivity|]. split.
  { apply (proj1 (@extract_identity_name_rule Canned.urllib Canned.home_soup Canned.home)
             "Home | Acme Rockets"); [reflexivity|discriminate|reflexivity]. }
  split; [right; reflexivity|]. split; [reflexivity|]. split; [reflexivity|].
  apply (proj2 (@extract_identity_name_rule Canned.urllib Canned.contact_soup
                  "https://www.acme.test/contact")); [right; reflexivity|reflexivity|reflexivity].
Defined.

Example extract_identity_canned :
  @extract_identity Canned.urllib Canned.home_soup Canned.home
  = {| company_name := "Acme Rockets"; website := "https://acme.test";
       tagline := "Rockets for everyone" |}
  ∧ company_name (@extract_identity Canned.urllib Canned.contact_soup
                    "https://www.acme.test/contact") = "Acme"
  ∧ name_of_title "Acme" = "Acme"
  ∧ name_of_title "Home | Foo - Bar" = "Foo-Bar"
  ∧ name_of_title "Pricing - Acme" = "Acme"
  ∧ name_of_title "A|B" = "B".
Proof. by vm_compute. Qed.

(** ** Description (extractor.py, [extract_company_description]) *)

(** The text before truncation: the first five [.]-separated segments,
    joined by [". "], stripped, every run of white space replaced by one
    space. *)
Definition description_body (text : str) : str :=
  sub whitespace_run " " (strip (join ". " (take 5 (split "." text)))).

Lemma extract_company_description_body (text : str) :
  extract_company_description text
  = if 500 <? length (description_body text)
    then take 500 (description_body text) ++ "..."
    else description_body text.
Proof. by destruct text. Qed.

(** The result is never longer than 503 characters, and it is longer than
    500 exactly when the text was cut. *)
Lemma extract_company_description_length (text : str) :
  length (extract_company_description text) ≤ 503
  ∧ (500 < length (description_body text)
     ↔ length (extract_company_description text) = 503).
Proof.
  rewrite extract_company_description_body.
  destruct (Nat.ltb_spec 500 (length (description_body text))) as [Hlt|Hle].
  - rewrite length_app, length_take.
    change (length ("..." : str)) with 3. split; [lia|]. split; lia.
  - split; [lia|]. split; lia.
Qed.

(** *** The ellipsis marks truncation *)

(** Every [.] is followed by white space, unless it is the last character. *)
Fixpoint dots_spaced (s : str) : bool :=
  match s with
  | [] => true
  | c :: s' =>
      (if Ascii.eqb c "." then match s' with [] => true | x :: _ => is_space x end
       else true)
      && dots_spaced s'
  end.

Lemma dots_spaced_app_l (s t : str) : dots_spaced (s ++ t) = true → dots_spaced s = true.
Proof.
  induction s as [|c s IH]; [done|]. simpl.
  intros [Hc Hs]%andb_true_iff. rewrite (IH Hs), andb_true_r.
  destruct (Ascii.eqb c "."); [|done]. by destruct s.
Qed.

Lemma dots_spaced_app_r (s t : str) : dots_spaced (s ++ t) = true → dots_spaced t = true.
Proof. induction s as [|c s IH]; [done|]. simpl. by intros [_ Hs]%andb_true_iff; auto. Qed.

Lemma drop_while_suffix (p : ascii → bool) (s : str) :
  ∃ pre, s = pre ++ drop_while p s.
Proof.
  induction s as [|c s [pre IH]]; [by exists []|]. simpl.
  destruct (p c); [|by exists []]. exists (c :: pre). by rewrite IH at 1.
Qed.

Lemma dots_spaced_strip (s : str) : dots_spaced s = true → dots_spaced (strip s) = true.
Proof.
  intros Hs. unfold strip, rstrip, lstrip.
  destruct (drop_while_suffix is_space s) as [pre Hpre].
  rewrite Hpre in Hs. apply dots_spaced_app_r in Hs.
  destruct (drop_while_suffix is_space (rev (drop_while is_space s))) as [post Hpost].
  apply (f_equal (@rev _)) in Hpost. rewrite rev_involutive, rev_app_distr in Hpost.
  rewrite Hpost in Hs. by apply dots_spaced_app_l in Hs.
Qed.

Lemma split_dot_free (sep : ascii) (s : str) :
  Forall (λ seg, existsb (Ascii.eqb sep) seg = false) (split sep s).
Proof.
  induction s as [|c s IH]; simpl; [by repeat constructor|].
  destruct (Ascii.eqb c sep) eqn:Hc; [by constructor|].
  pose proof (split_nonempty sep s) as Hne.
  destruct (split sep s) as [|seg segs]; [done|].
  apply Forall_cons in IH as [Hseg Hsegs]. constructor; [|done].
  simpl. by rewrite Ascii.eqb_sym, Hc.
Qed.

Lemma dots_spaced_dot_free (s t : str) :
  existsb (Ascii.eqb ".") s = false → dots_spaced t = true →
  dots_spaced (s ++ t) = true.
Proof.
  intros Hs Ht. induction s as [|c s IH]; [done|].
  cbn [existsb] in Hs. apply orb_false_iff in Hs as [Hc Hs].
  change ((c :: s) ++ t) with (c :: (s ++ t)). cbn [dots_spaced].
  rewrite Ascii.eqb_sym in Hc. by rewrite Hc, IH.
Qed.

Lemma dots_spaced_join (segs : list str) :
  Forall (λ seg, existsb (Ascii.eqb ".") seg = false) segs →
  dots_spaced (join ". " segs) = true.
Proof.
  induction segs as [|p [|q segs] IH]; intros Hsegs; [done|..].
  - apply Forall_cons in Hsegs as [Hp _]. simpl.
    rewrite <-(app_nil_r p). by apply dots_spaced_dot_free.
  - apply Forall_cons in Hsegs as [Hp Hsegs].
    change (join ". " (p :: q :: segs)) with (p ++ ". " ++ join ". " (q :: segs)).
    apply dots_spaced_dot_free; [done|].
    change (". " ++ ?t) with ("."%char :: " "%char :: t).
    cbn [dots_spaced]. by rewrite (IH Hsegs).
Qed.

(** The length of the run of characters of a class at the head of a
    string. *)
Fixpoint run_length (p : ascii → bool) (s : str) : nat :=
  match s with
  | c :: s' => if p c then S (run_length p s') else 0
  | [] => 0
  end.

Lemma rep_unbounded_greedy p lo (a b : str) :
  rep p lo None b a Some
  = if lo <=? run_length p a
    then Some (Cursor (rev (take (run_length p a) a) ++ b) (drop (run_length p a) a))
    else None.
Proof.
  revert lo b. induction a as [|c a IH]; intros lo b; simpl.
  - by destruct lo.
  - destruct (p c); simpl.
    + rewrite IH. destruct lo as [|lo]; simpl.
      * by rewrite <-app_assoc.
      * destruct (lo <=? run_length p a); [by rewrite <-app_assoc|done].
    + by destruct lo.
Qed.

Lemma whitespace_run_at (c : ascii) (a b : str) :
  match_at whitespace_run (Cursor b (c :: a))
  = if is_space c
    then Some (Cursor (rev (take (run_length is_space (c :: a)) (c :: a)) ++ b)
                 (drop (run_length is_space (c :: a)) (c :: a)))
    else None.
Proof.
  unfold match_at, whitespace_run, plus. cbn [bt seen rest].
  rewrite rep_unbounded_greedy. simpl. by destruct (is_space c).
Qed.

Lemma run_length_le (p : ascii → bool) (s : str) : run_length p s ≤ length s.
Proof. induction s as [|c s IH]; simpl; [lia|]. destruct (p c); simpl; lia. Qed.

(** Collapsing the runs of white space keeps the dots spaced. *)
Lemma dots_spaced_sub (a b : str) (skip : nat) :
  skip ≤ run_length is_space a → dots_spaced a = true →
  dots_spaced (sub_from whitespace_run " " b a skip) = true
  ∧ (skip = 0 → ∀ x a', a = x :: a' → is_space x = true →
       ∃ t, sub_from whitespace_run " " b a skip = " "%char :: t).
Proof.
  revert b skip. induction a as [|c a IH]; intros b skip Hskip Hdots; [done|].
  simpl in Hdots. apply andb_true_iff in Hdots as [Hc Hdots].
  destruct skip as [|n].
  - cbn [sub_from]. rewrite whitespace_run_at. simpl in *.
    destruct (is_space c) eqn:Hsp.
    + unfold span. cbn [rest]. rewrite length_drop.
      pose proof (run_length_le is_space a).
      replace (length (c :: a) - (length (c :: a) - S (run_length is_space a)))
        with (S (run_length is_space a)) by (simpl; lia).
      destruct (IH (c :: b) (run_length is_space a)) as [IH1 _]; [lia|done|].
      split; [done|]. intros _ x a' _ _. by eexists.
    + destruct (IH (c :: b) 0) as [IH1 IH2]; [lia|done|].
      split; [|intros _ x a' [= <- <-]; congruence].
      cbn [dots_spaced]. rewrite IH1, andb_true_r.
      destruct (Ascii.eqb c "."); [|done].
      destruct a as [|x a']; [done|].
      destruct (IH2 eq_refl x a' eq_refl Hc) as [t ->]. done.
  - simpl in Hskip. destruct (is_space c); [|lia].
    cbn [sub_from]. destruct (IH (c :: b) n) as [IH1 _]; [lia|done|].
    split; [done|]. by intros [=].
Qed.

Lemma description_body_dots (text : str) : dots_spaced (description_body text) = true.
Proof.
  unfold description_body, sub. apply dots_spaced_sub; [lia|].
  apply dots_spaced_strip, dots_spaced_join.
  pose proof (split_dot_free "." text) as Hall.
  rewrite <-(take_drop 5 (split "." text)) in Hall. by apply Forall_app in Hall as [? _].
Qed.

Lemma dots_spaced_no_ellipsis (s : str) : dots_spaced (s ++ "...") = false.
Proof.
  induction s as [|c s IH]; [done|].
  change ((c :: s) ++ "...") with (c :: (s ++ "...")). cbn [dots_spaced].
  by rewrite IH, andb_false_r.
Qed.

(** The result ends with ["..."] exactly when the text was cut at 500
    characters. *)
Lemma extract_company_description_ellipsis (text : str) :
  (∃ s, extract_company_description text = s ++ "...")
  ↔ 500 < length (description_body text).
Proof.
  rewrite extract_company_description_body.
  destruct (Nat.ltb_spec 500 (length (description_body text))) as [Hlt|Hle].
  - split; [done|]. intros _. by eexists.
  - split; [|lia]. intros [s Hs].
    pose proof (description_body_dots text) as Hdots.
    by rewrite Hs, dots_spaced_no_ellipsis in Hdots.
Qed.

Definition long_sentence : str := repeat "a"%char 501.

(** C4. On a text of 501 letters the description is the first 500 letters
    followed by ["..."]: 503 characters, more than the 500 that the claim and
    the comment in the code allow. *)
Theorem extract_company_description_exceeds_limit :
  extract_company_description long_sentence = repeat "a"%char 500 ++ "..."
  ∧ length (extract_company_description long_sentence) = 503
  ∧ ¬ length (extract_company_description long_sentence) ≤ 500.
Proof.
  assert (extract_company_description long_sentence = repeat "a"%char 500 ++ "...")
    as -> by (by vm_compute).
  split; [done|]. rewrite length_app, repeat_length. simpl. split; lia.
Qed.

(** ** Pricing (extractor.py, [extract_pricing]) *)

Lemma code_inj x y : code x = code y → x = y.
Proof.
  unfold code. intros Heq.
  by rewrite <-(ascii_nat_embedding x), <-(ascii_nat_embedding y), Heq.
Qed.

Lemma str_leb_cons x y (a b : str) :
  str_leb (x :: a) (y :: b) = true
  ↔ code x < code y ∨ (code x = code y ∧ str_leb a b = true).
Proof.
  simpl. rewrite orb_true_iff, andb_true_iff, Nat.ltb_lt, Nat.eqb_eq. done.
Qed.

#[global] Instance str_le_refl : Reflexive str_le.
Proof.
  intros a. unfold str_le. induction a as [|x a IH]; [done|].
  apply str_leb_cons. auto.
Qed.

#[global] Instance str_le_trans : Transitive str_le.
Proof.
  unfold str_le. intros a. induction a as [|x a IH]; intros [|y b] [|z c]; try done.
  rewrite !str_leb_cons. intros [?|[? ?]] [?|[? ?]]; [left; lia..|].
  right. split; [lia|eauto].
Qed.

#[global] Instance str_le_antisym : AntiSymm (=) str_le.
Proof.
  unfold str_le. intros a. induction a as [|x a IH]; intros [|y b]; try done.
  rewrite !str_leb_cons. intros [?|[Hxy ?]] [?|[? ?]]; try lia.
  apply code_inj in Hxy as ->. f_equal. auto.
Qed.

#[global] Instance str_le_total : Total str_le.
Proof.
  unfold str_le. intros a. induction a as [|x a IH]; intros [|y b]; auto.
  rewrite !str_leb_cons. destruct (IH b); destruct (lt_eq_lt_dec (code x) (code y))
    as [[?|?]|?]; auto.
Qed.

Lemma sorted_StronglySorted (l : list str) : StronglySorted str_le (sorted l).
Proof. apply StronglySorted_merge_sort; apply _. Qed.

Lemma elem_of_sorted (l : list str) x : x ∈ sorted l ↔ x ∈ l.
Proof. unfold sorted. by rewrite merge_sort_Permutation. Qed.

(** The sorted list does not depend on the order in which the set is
    iterated. *)
Lemma sorted_list_of_set `{SetOrder} (l : list str) :
  sorted (list_of_set l) = sorted (remove_dups l).
Proof.
  apply (StronglySorted_unique str_le); [apply sorted_StronglySorted..|].
  unfold sorted. rewrite !merge_sort_Permutation.
  apply NoDup_Permutation; [apply list_of_set_NoDup|apply NoDup_remove_dups|].
  intros x. by rewrite list_of_set_elem, elem_of_remove_dups.
Qed.

Lemma NoDup_sorted_list_of_set `{SetOrder} (l : list str) :
  NoDup (sorted (list_of_set l)).
Proof.
  unfold sorted. rewrite merge_sort_Permutation. apply list_of_set_NoDup.
Qed.

Lemma price_pattern_dollar b m a :
  matches price_pattern b m a → startswith "$" m = true.
Proof.
  unfold price_pattern.
  intros (? & ? & -> & ->%matches_chr & _)%matches_cat. done.
Qed.

Lemma startswith_dollar_digit c (s : str) :
  is_digit c = true → startswith "$" (c :: s) = false.
Proof.
  change (startswith "$" (c :: s)) with (Ascii.eqb "$" c && true).
  by_cases_on_char c.
Qed.

Lemma price_pattern_no_dollar_digit b m a :
  matches price_pattern_no_dollar b m a → startswith "$" m = false.
Proof.
  unfold price_pattern_no_dollar.
  intros (? & ? & -> & Hnb & Hm)%matches_cat. inverts Hnb.
  apply matches_cat in Hm as (d & ? & -> & (Hd & Hlen & _)%matches_rep & _).
  destruct d as [|c d]; [simpl in Hlen; lia|].
  simpl in Hd. apply andb_true_iff in Hd as [Hc _].
  by apply startswith_dollar_digit.
Qed.

(** Where the members of [all_prices] come from. *)
Lemma elem_of_all_prices (text p : str) :
  p ∈ all_prices text →
  startswith "$" p = true
  ∧ (p ∈ findall price_pattern text
     ∨ ∃ m, p = "$" ++ m
            ∧ (m ∈ findall price_pattern_no_dollar text
               ∨ m ∈ findall price_pattern_standalone text)).
Proof.
  unfold all_prices.
  intros [Hp|[(m & -> & Hm)%list_elem_of_fmap|(m & -> & Hm)%list_elem_of_fmap]%elem_of_app]%elem_of_app.
  - split; [|by left].
    apply findall_sound in Hp as (? & ? & _ & Hm). eauto using price_pattern_dollar.
  - pose proof Hm as (? & ? & _ & Hd%price_pattern_no_dollar_digit)%findall_sound.
    rewrite Hd. split; [done|]. right. eauto.
  - apply list_elem_of_In, List.filter_In in Hm as [Hm%list_elem_of_In _].
    split; [done|]. right. eauto.
Qed.

Definition pricing_example : str :=
  "Starter plan $29/month, Pro plan $99/month, free trial available".

(** C3, as stated, fails on the empty text: the function returns the empty
    dictionary, which has no [prices]. *)
Lemma extract_pricing_empty_text_no_prices :
  @extract_pricing insertion_order "" = None
  ∧ ¬ (∃ info, @extract_pricing insertion_order "" = Some info
               ∧ length (prices info) ≤ 5).
Proof. split; [done|]. by intros (info & [=] & _). Qed.

(** C3 (amended). On the empty text [extract_pricing] returns the empty
    dictionary.  On every other text it returns a record whose [prices] are
    sorted in the lexicographic order of strings (not by amount), without
    repetition, at most 5, each beginning with [$]: a match of the
    dollar pattern as found, or a match of one of the two dollar-less patterns
    with [$] put in front.  On the example text the tiers include Starter and
    Pro, [free_option] and [trial_available] are true and the prices are
    [$29/month] and [$99/month]; and [$100] is listed before [$20]. *)
Theorem extract_pricing_spec `{SetOrder} (text : str) :
  extract_pricing [] = None
  ∧ (text ≠ [] →
     ∃ info, extract_pricing text = Some info
       ∧ StronglySorted str_le (prices info)
       ∧ NoDup (prices info)
       ∧ length (prices info) ≤ 5
       ∧ ∀ p, p ∈ prices info →
           startswith "$" p = true
           ∧ (p ∈ findall price_pattern text
              ∨ ∃ m, p = "$" ++ m
                     ∧ (m ∈ findall price_pattern_no_dollar text
                        ∨ m ∈ findall price_pattern_standalone text)))
  ∧ (∃ info, extract_pricing pricing_example = Some info
       ∧ ("Starter" : str) ∈ tiers info ∧ ("Pro" : str) ∈ tiers info
       ∧ free_option info = true ∧ trial_available info = true
       ∧ prices info = ["$29/month"; "$99/month"])
  ∧ (∃ info, extract_pricing "Plans at $20 and $100" = Some info
       ∧ prices info = ["$100"; "$20"]).
Proof.
  split; [done|]. split_and!.
  - intros Htext. destruct text as [|c text]; [done|].
    eexists. split; [reflexivity|]. simpl prices.
    set (found := sorted (list_of_set (all_prices (c :: text)))).
    assert (take 5 found `sublist_of` found) as Hsub by apply sublist_take.
    split_and!.
    + eapply (StronglySorted_app_1_l _ _ (drop 5 found)).
      rewrite take_drop. apply sorted_StronglySorted.
    + eapply sublist_NoDup; [|done]. apply NoDup_sorted_list_of_set.
    + rewrite length_take. lia.
    + intros p Hp. apply elem_of_all_prices.
      eapply elem_of_sublist in Hp; [|done]. unfold found in Hp.
      by rewrite elem_of_sorted, list_of_set_elem in Hp.
  - eexists. split; [reflexivity|].
    cbn [tiers prices free_option trial_available].
    rewrite sorted_list_of_set, !list_of_set_elem. split_and!.
    + apply (bool_decide_unpack _). by vm_compute.
    + apply (bool_decide_unpack _). by vm_compute.
    + by vm_compute.
    + by vm_compute.
    + by vm_compute.
  - eexists. split; [reflexivity|]. cbn [prices].
    rewrite sorted_list_of_set. by vm_compute.
Qed.

Lemma extract_pricing_spec_witness :
  ("$9/year or 15/month" : str) ≠ []
  ∧ ∃ info, @extract_pricing insertion_order "$9/year or 15/month" = Some info
      ∧ StronglySorted str_le (prices info)
      ∧ NoDup (prices info)
      ∧ length (prices info) ≤ 5
      ∧ ∀ p, p ∈ prices info →
          startswith "$" p = true
          ∧ (p ∈ findall price_pattern "$9/year or 15/month"
             ∨ ∃ m, p = "$" ++ m
                    ∧ (m ∈ findall price_pattern_no_dollar "$9/year or 15/month"
                       ∨ m ∈ findall price_pattern_standalone "$9/year or 15/month")).
Proof.
  split; [done|].
  apply (proj1 (proj2 (@extract_pricing_spec insertion_order "$9/year or 15/month"))).
  done.
Defined.

(** ** The patterns of the program consume text *)

(** A pattern that matches no empty piece of text.  [findall] and [sub] are
    modelled for such patterns. *)
Definition consuming (r : regex) : Prop := ∀ b m a, matches r b m a → m ≠ [].

Lemma digits_consuming lo hi b m a :
  1 ≤ lo → matches (Rep is_digit lo hi) b m a → m ≠ [].
Proof. intros Hlo (_ & Hlen & _)%matches_rep. apply length_pos_ne_nil. lia. Qed.

Lemma program_patterns_consuming :
  Forall consuming
    [whitespace_run; Cls not_digit_plus; email_pattern; phone_pattern;
     price_pattern; price_pattern_no_dollar; price_pattern_standalone].
Proof.
  repeat apply Forall_cons_2; [..|apply Forall_nil_2]; intros b m a Hm.
  - apply matches_rep in Hm as (_ & Hlen & _). by apply length_pos_ne_nil.
  - by apply matches_cls in Hm as (c & -> & _).
  - apply email_pattern_shape in Hm as (loc & dom & tld & -> & Hloc & _).
    by destruct loc.
  - apply phone_pattern_shape, phone_shape_digits in Hm.
    destruct m; simpl in *; [lia|done].
  - apply price_pattern_dollar in Hm. by destruct m.
  - unfold price_pattern_no_dollar in Hm.
    apply matches_cat in Hm as (? & ? & -> & Hnb & Hm). inverts Hnb.
    apply matches_cat in Hm as (d & ? & -> & Hd%digits_consuming & _); [|lia].
    by destruct d.
  - unfold price_pattern_standalone in Hm.
    apply matches_cat in Hm as (? & ? & -> & Hnb & Hm). inverts Hnb.
    apply matches_cat in Hm as (? & ? & -> & Hw & Hm). inverts Hw.
    apply matches_cat in Hm as (d & ? & -> & Hd%digits_consuming & _); [|lia].
    by destruct d.
Qed.

(** ** The orchestrator (runner.py, [run]) *)

(** A fetch brings back a document when the browser does not raise and the
    page source is not empty. *)
Definition brought_document (o : outcome) : bool :=
  match o with
  | Loaded (_ :: _) => true
  | Loaded [] | Raised _ => false
  end.

(** The homepage fetch fails on a transport error or an empty document. *)
Definition homepage_failed (o : outcome) : bool := negb (brought_document o).

(** An attempt on a priority page that brought back a document. *)
Definition delivered (attempt : str * outcome) : bool :=
  brought_document attempt.2.

(** A result that holds nothing but its metadata. *)
Definition only_metadata (r : Result) : Prop :=
  identity r = None ∧ contacts r = None ∧ social_links r = None
  ∧ description r = None ∧ business_info r = None ∧ key_pages r = None.

Definition complete (r : Result) : Prop :=
  is_Some (identity r) ∧ is_Some (contacts r) ∧ is_Some (social_links r)
  ∧ is_Some (description r) ∧ is_Some (business_info r) ∧ is_Some (key_pages r).

Section OrchestratorProperties.

Context `{SetOrder} `{Browser} `{Parser} `{Urllib} `{Clock}.

Lemma fetch_page_spec (url : str) (w : World) :
  ∃ d, driver_get (driver w) url = (d, (driver_get (driver w) url).2)
     ∧ (fetch_page url w).2
       = {| driver := d;
            fetched := fetched w ++ [(url, (driver_get (driver w) url).2)] |}
     ∧ (fetch_page url w).1
       = match (driver_get (driver w) url).2 with
         | Loaded src => (Some src, None)
         | Raised msg => (None, Some msg)
         end.
Proof.
  unfold fetch_page. destruct (driver_get (driver w) url) as [d o].
  exists d. by destruct o.
Qed.

(** One turn of the loop makes exactly one fetch, and records the page as
    visited exactly when the fetch delivered a document. *)
Lemma visit_spec (acc : Crawl) (page_url : str) (w : World) :
  ∃ o, fetched (visit acc page_url w).2 = fetched w ++ [(page_url, o)]
     ∧ visited_pages (visit acc page_url w).1
       = visited_pages acc ++ (if delivered (page_url, o) then [page_url] else []).
Proof.
  unfold visit, mbind, state_bind, mret, state_ret.
  destruct (fetch_page_spec page_url w) as (d & _ & Hw & Hr).
  destruct (fetch_page page_url w) as [[page_html err] w']. simpl in *. subst w'.
  exists (driver_get (driver w) page_url).2.
  destruct (driver_get (driver w) page_url).2 as [[|c src]|msg];
    injection Hr as -> ->; simpl; by rewrite ?app_nil_r.
Qed.

Lemma for_each_visit_spec (items : list str) (acc : Crawl) (w : World) :
  let out := for_each visit acc items w in
  ∃ attempts,
    fetched out.2 = fetched w ++ attempts
    ∧ attempts.*1 = items
    ∧ visited_pages out.1 = visited_pages acc ++ (List.filter delivered attempts).*1.
Proof.
  revert acc w. induction items as [|page_url items IH]; intros acc w; simpl.
  - exists []. by rewrite !app_nil_r.
  - unfold mbind, state_bind.
    destruct (visit_spec acc page_url w) as (o & Hf & Hv).
    destruct (visit acc page_url w) as [acc1 w1]. simpl in Hf, Hv.
    destruct (IH acc1 w1) as (attempts & Hf' & Hitems & Hv').
    exists ((page_url, o) :: attempts). split_and!.
    + simpl. by rewrite Hf', Hf, <-app_assoc.
    + by rewrite fmap_cons, Hitems.
    + simpl in *. rewrite Hv', Hv, <-app_assoc.
      by destruct (delivered (page_url, o)).
Qed.

(** The result of [run], by the outcome of the homepage fetch: metadata
    alone with an error, or every field and no error. *)
Lemma run_result_fields (url : str) (w : World) :
  let o := (driver_get (driver w) url).2 in
  let r := (run url w).1 in
  (homepage_failed o = true →
     errors (metadata r) ≠ [] ∧ pages_crawled (metadata r) = 0 ∧ only_metadata r)
  ∧ (homepage_failed o = false →
       errors (metadata r) = [] ∧ complete r).
Proof.
  intros o r. subst o r. unfold run, mbind, state_bind, mret, state_ret.
  destruct (fetch_page_spec url w) as (d & _ & _ & Hr).
  destruct (fetch_page url w) as [[html error] w1]. simpl in Hr.
  destruct (driver_get (driver w) url).2 as [[|c src]|msg];
    injection Hr as -> ->; simpl.
  - split; [|done]. intros _. by repeat split.
  - split; [done|]. intros _.
    destruct (for_each _ _ _ _) as [crawl w2]. simpl.
    unfold complete. simpl. by repeat split.
  - split; [|done]. intros _. destruct msg; simpl; by repeat split.
Qed.

(** C2. When the homepage is delivered, the result satisfies
    [pages_crawled = 1 + len(visited)]; after the homepage at most 8 further
    fetches are made, so [visited] has at most 8 entries; [visited] lists, in
    order, exactly the attempted pages whose fetch delivered a non-empty
    document; the failed attempts leave no trace in the result, and
    [metadata.errors] is empty.  The attempted pages are the first 8 of the
    selected priority pages. *)
Theorem run_page_budget (url html : str) (w : World) :
  (driver_get (driver w) url).2 = Loaded html →
  html ≠ [] →
  ∃ pages attempts,
    key_pages (run url w).1 = Some pages
    ∧ pages_crawled (metadata (run url w).1) = 1 + length (visited pages)
    ∧ fetched (run url w).2 = fetched w ++ (url, Loaded html) :: attempts
    ∧ attempts.*1
      = take MAX_PAGES
          (filter_priority_pages
             (get_internal_links url (extract_links (parse_html html))))
    ∧ length attempts ≤ 8
    ∧ visited pages = (List.filter delivered attempts).*1
    ∧ length (visited pages) ≤ 8
    ∧ errors (metadata (run url w).1) = [].
Proof.
  intros Ho Hhtml. unfold run, mbind, state_bind, mret, state_ret.
  destruct (fetch_page_spec url w) as (d & _ & Hw & Hr).
  destruct (fetch_page url w) as [[page error] w1]. simpl in Hw, Hr.
  rewrite Ho in Hw, Hr. injection Hr as -> ->. subst w1.
  destruct html as [|c html]; [done|]. simpl.
  match goal with |- context [for_each _ ?acc ?items ?w1] =>
    destruct (for_each_visit_spec items acc w1) as (attempts & Hf & Hitems & Hv);
    destruct (for_each visit acc items w1) as [crawl w2]
  end.
  simpl in *. eexists _, attempts. split; [reflexivity|]. simpl.
  assert (length attempts ≤ 8) as Hlen.
  { rewrite <-(length_fmap fst), Hitems, length_take. unfold MAX_PAGES. lia. }
  rewrite Hf, Hv, <-app_assoc. split_and!; try done.
  rewrite length_fmap. etrans; [apply List.filter_length_le|done].
Qed.

End OrchestratorProperties.

(** *** The paths on which a run ends *)

Section FatalPaths.

Context `{SetOrder} `{Browser} `{Parser} `{Urllib} `{UrllibErrors} `{Clock}.

Lemma internal_links_loop_spec (base_url base_domain : str) (internal links : list str) :
  internal_links_loop base_url base_domain internal links
  = if existsb (λ link, urljoin_raises base_url link
                        || urlparse_raises (urljoin base_url link)) links
    then None
    else Some (internal
               ++ List.filter (λ full, bool_decide (urlparse_netloc full = base_domain))
                    (urljoin base_url <$> links)).
Proof.
  revert internal. induction links as [|link links IH]; intros internal.
  - simpl. by rewrite app_nil_r.
  - cbn [internal_links_loop existsb fmap list_fmap List.filter].
    destruct (urljoin_raises base_url link); [done|].
    destruct (urlparse_raises (urljoin base_url link)); [done|].
    rewrite IH. cbn [orb]. destruct (existsb _ links); [done|].
    case_bool_decide; [by rewrite <-app_assoc|done].
Qed.

(** [get_internal_links] raises when one of its calls of [urllib.parse]
    does, and returns the list of the same-host links otherwise. *)
Lemma get_internal_links_exc_spec (base_url : str) (links : list str) :
  get_internal_links_exc base_url links
  = if links_raise base_url links then None
    else Some (get_internal_links base_url links).
Proof.
  unfold get_internal_links_exc, links_raise, get_internal_links.
  destruct (urlparse_raises base_url); [done|]. cbn [orb].
  rewrite internal_links_loop_spec. by destruct (existsb _ links).
Qed.

(** A run either raises, right after the homepage fetch and before any other
    action, or does what [run] describes. *)
Lemma run_exc_spec (url : str) (w : World) :
  run_exc url w
  = match (driver_get (driver w) url).2 with
    | Loaded ((_ :: _) as html) =>
        if links_raise url (extract_links (parse_html html))
        then (None, (fetch_page url w).2)
        else (Some (run url w).1, (run url w).2)
    | _ => (Some (run url w).1, (run url w).2)
    end.
Proof.
  unfold run_exc, run, mbind, state_bind, mret, state_ret.
  destruct (fetch_page_spec url w) as (d & _ & _ & Hr).
  destruct (fetch_page url w) as [[html error] w1]. simpl in Hr.
  destruct (driver_get (driver w) url).2 as [[|c src]|msg];
    injection Hr as -> ->; cbn [truthy negb orb default from_option id snd fst].
  - by destruct (quit w1).
  - unfold extract_identity_exc. rewrite get_internal_links_exc_spec.
    destruct (links_raise url _) eqn:Hraise.
    + by destruct (urlparse_raises url).
    + assert (urlparse_raises url = false) as ->
        by (unfold links_raise in Hraise; by apply orb_false_iff in Hraise as [? _]).
      destruct (for_each _ _ _ _) as [crawl w2]. by destruct (quit w2).
  - rewrite orb_true_r. by destruct (quit w1).
Qed.

(** What a run returns is what [run] describes. *)
Lemma run_exc_result (url : str) (w : World) (r : Result) :
  (run_exc url w).1 = Some r →
  r = (run url w).1 ∧ (run_exc url w).2 = (run url w).2.
Proof.
  rewrite run_exc_spec.
  destruct (driver_get (driver w) url).2 as [[|c src]|msg]; simpl;
    [by intros [= <-]| |by intros [= <-]].
  destruct (links_raise url _); simpl; [done|by intros [= <-]].
Qed.

(** C1. A failed homepage fetch (the browser raises, or the page source is
    empty) ends the run with a result that holds a non-empty
    [metadata.errors], [pages_crawled = 0] and none of the other fields.  It
    is not the only path on which a run ends without the fields: when the
    homepage is delivered and [urllib.parse] raises on the site URL or on one
    of the links of the homepage, the [ValueError] leaves [run]; there is no
    result, one fetch has been made and [quit] has not been called.  On every
    other delivered homepage the result has all the fields and no error. *)
Theorem run_fatal_paths (url : str) (w : World) :
  let o := (driver_get (driver w) url).2 in
  (homepage_failed o = true →
     ∃ r, (run_exc url w).1 = Some r
          ∧ errors (metadata r) ≠ [] ∧ pages_crawled (metadata r) = 0
          ∧ only_metadata r)
  ∧ (∀ html, o = Loaded html → html ≠ [] →
       links_raise url (extract_links (parse_html html)) = true →
       (run_exc url w).1 = None
       ∧ (run_exc url w).2
         = {| driver := (driver_get (driver w) url).1;
              fetched := fetched w ++ [(url, o)] |})
  ∧ (∀ html, o = Loaded html → html ≠ [] →
       links_raise url (extract_links (parse_html html)) = false →
       ∃ r, (run_exc url w).1 = Some r ∧ errors (metadata r) = [] ∧ complete r).
Proof.
  intros o. subst o. rewrite run_exc_spec.
  destruct (run_result_fields url w) as [Hfailed Hdelivered].
  destruct (fetch_page_spec url w) as (d & Hget & Hw & _).
  split_and!.
  - intros Hfail. exists (run url w).1. split; [|by apply Hfailed].
    by destruct (driver_get (driver w) url).2 as [[|c src]|msg].
  - intros html Ho Hhtml Hraise. rewrite Ho in *.
    destruct html as [|c src]; [done|]. rewrite Hraise. simpl.
    split; [done|]. rewrite Hw. by rewrite Hget.
  - intros html Ho Hhtml Hraise. rewrite Ho in *.
    destruct html as [|c src]; [done|]. rewrite Hraise. simpl.
    exists (run url w).1. split; [done|]. by apply Hdelivered.
Qed.

End FatalPaths.

Section CannedRuns.

Import Canned.

(** The end-to-end run of the specification: the homepage loads, three
    priority pages are selected and two of them load. *)
Example run_canned_site :
  let r := (run Canned.home Canned.start).1 in
  pages_crawled (metadata r) = 3
  ∧ errors (metadata r) = []
  ∧ visited <$> key_pages r
    = Some (["https://acme.test/about"; "https://acme.test/contact"] : list str)
  ∧ (company_name <$> identity r) = Some ("Acme Rockets" : str)
  ∧ (phones <$> contacts r) = Some (["+1-555-123-4567"] : list str)
  ∧ ((.!! "linkedin") <$> social_links r)
    = Some (Some ("https://www.linkedin.com/company/acme" : str)).
Proof. vm_compute. repeat split. Qed.

Lemma run_page_budget_witness :
  (driver_get (driver Canned.start) Canned.home).2 = Loaded "HOME"
  ∧ ("HOME" : str) ≠ []
  ∧ ∃ pages attempts,
      key_pages (run Canned.home Canned.start).1 = Some pages
      ∧ pages_crawled (metadata (run Canned.home Canned.start).1)
        = 1 + length (visited pages)
      ∧ fetched (run Canned.home Canned.start).2
        = fetched Canned.start ++ (Canned.home, Loaded "HOME") :: attempts
      ∧ attempts.*1
        = take MAX_PAGES
            (filter_priority_pages
               (get_internal_links Canned.home (extract_links (parse_html "HOME"))))
      ∧ length attempts ≤ 8
      ∧ visited pages = (List.filter delivered attempts).*1
      ∧ length (visited pages) ≤ 8
      ∧ errors (metadata (run Canned.home Canned.start).1) = [].
Proof.
  split; [reflexivity|]. split; [discriminate|].
  apply (run_page_budget Canned.home "HOME" Canned.start); [reflexivity|discriminate].
Defined.

End CannedRuns.

(** The run on the site with the malformed link: one fetch, no result, and
    the browser is left open. *)
Example run_broken_site :
  @run_exc Canned.order Broken.browser Broken.parser Canned.urllib Broken.errors
    Canned.clock Canned.home Broken.start
  = (None, @Build_World Broken.browser (1, false) [(Canned.home, Loaded "HOME")]).
Proof. vm_compute. reflexivity. Qed.

Lemma run_fatal_paths_witness :
  (@driver_get Broken.browser (driver Broken.start) Canned.home).2 = Loaded "HOME"
  ∧ ("HOME" : str) ≠ []
  ∧ @links_raise Canned.urllib Broken.errors Canned.home
      (extract_links (@parse_html Broken.parser "HOME")) = true
  ∧ (@run_exc Canned.order Broken.browser Broken.parser Canned.urllib Broken.errors
       Canned.clock Canned.home Broken.start).1 = None
  ∧ (@run_exc Canned.order Broken.browser Broken.parser Canned.urllib Broken.errors
       Canned.clock Canned.home Broken.start).2
    = @Build_World Broken.browser (1, false) [(Canned.home, Loaded "HOME")].
Proof.
  assert ((@driver_get Broken.browser (driver Broken.start) Canned.home).2
          = Loaded "HOME") as Ho by reflexivity.
  assert (("HOME" : str) ≠ []) as Hhtml by discriminate.
  assert (@links_raise Canned.urllib Broken.errors Canned.home
            (extract_links (@parse_html Broken.parser "HOME")) = true) as Hraise
    by reflexivity.
  split; [exact Ho|]. split; [exact Hhtml|]. split; [exact Hraise|].
  exact (proj1 (proj2 (@run_fatal_paths Canned.order Broken.browser Broken.parser
                         Canned.urllib Broken.errors Canned.clock Canned.home
                         Broken.start))
           "HOME" Ho Hhtml Hraise).
Defined.

(** * Further properties of the code *)

(** ** White space (utils.py, [clean_text]; parser.py, [get_visible_text]) *)

Lemma drop_while_head (p : ascii → bool) (s t : str) (c : ascii) :
  drop_while p s = c :: t → p c = false.
Proof.
  induction s as [|x s IH]; [done|]. simpl.
  destruct (p x) eqn:Hx; [done|]. by intros [= <- _].
Qed.

(** What [strip] returns neither begins nor ends with white space. *)
Lemma strip_ends (s : str) :
  (∀ c t, strip s = c :: t → is_space c = false)
  ∧ (∀ c t, strip s = t ++ [c] → is_space c = false).
Proof.
  unfold strip, rstrip, lstrip. split.
  - intros c t Heq.
    destruct (drop_while_suffix is_space (rev (drop_while is_space s))) as [pre Hpre].
    apply (f_equal (@rev _)) in Hpre.
    rewrite rev_involutive, rev_app_distr, Heq in Hpre.
    by apply drop_while_head in Hpre.
  - intros c t Heq. apply (f_equal (@rev _)) in Heq.
    rewrite rev_involutive, rev_app_distr in Heq.
    by apply drop_while_head in Heq.
Qed.

Lemma strip_idempotent (s : str) : strip (strip s) = strip s.
Proof. destruct (strip_ends s). by apply strip_id. Qed.

(** Every white-space character is a space, and no two stand side by
    side. *)
Fixpoint single_spaced (s : str) : bool :=
  match s with
  | [] => true
  | c :: s' =>
      (if is_space c
       then Ascii.eqb c " " && match s' with x :: _ => negb (is_space x) | [] => true end
       else true)
      && single_spaced s'
  end.

Definition visible (s : str) : str := List.filter (λ c, negb (is_space c)) s.

Lemma single_spaced_app_l (s t : str) :
  single_spaced (s ++ t) = true → single_spaced s = true.
Proof.
  induction s as [|c s IH]; [done|].
  change ((c :: s) ++ t) with (c :: (s ++ t)). cbn [single_spaced].
  intros [Hc Hs]%andb_true_iff. rewrite (IH Hs), andb_true_r.
  destruct (is_space c); [|done].
  apply andb_true_iff in Hc as [-> Hnext]. by destruct s.
Qed.

Lemma single_spaced_app_r (s t : str) :
  single_spaced (s ++ t) = true → single_spaced t = true.
Proof.
  induction s as [|c s IH]; [done|].
  change ((c :: s) ++ t) with (c :: (s ++ t)). cbn [single_spaced].
  by intros [_ Hs]%andb_true_iff; auto.
Qed.

Lemma single_spaced_strip (s : str) :
  single_spaced s = true → single_spaced (strip s) = true.
Proof.
  intros Hs. unfold strip, rstrip, lstrip.
  destruct (drop_while_suffix is_space s) as [pre Hpre].
  rewrite Hpre in Hs. apply single_spaced_app_r in Hs.
  destruct (drop_while_suffix is_space (rev (drop_while is_space s))) as [post Hpost].
  apply (f_equal (@rev _)) in Hpost. rewrite rev_involutive, rev_app_distr in Hpost.
  rewrite Hpost in Hs. by apply single_spaced_app_l in Hs.
Qed.

Lemma visible_strip (s : str) : visible (strip s) = visible s.
Proof.
  assert (∀ u, visible (drop_while is_space u) = visible u) as Hdrop.
  { intros u. induction u as [|c u IH]; [done|]. unfold visible in *. simpl.
    destruct (is_space c) eqn:Hc; simpl; by rewrite ?Hc. }
  assert (∀ u, visible (rev u) = rev (visible u)) as Hrev.
  { intros u. unfold visible. induction u as [|c u IH]; [done|]. simpl.
    rewrite List.filter_app, IH. simpl. destruct (is_space c); simpl; [|done].
    by rewrite app_nil_r. }
  unfold strip, rstrip, lstrip.
  by rewrite Hrev, Hdrop, Hrev, rev_involutive, Hdrop.
Qed.

Lemma visible_space (c : ascii) (t : str) :
  is_space c = true → visible (c :: t) = visible t.
Proof. unfold visible. cbn [List.filter]. by intros ->. Qed.

Lemma visible_char (c : ascii) (t : str) :
  is_space c = false → visible (c :: t) = c :: visible t.
Proof. unfold visible. cbn [List.filter]. by intros ->. Qed.

(** [re.sub(r"\s+", " ", s)]: the result is single-spaced, begins with a
    visible character when what is left of a run has been passed, and keeps
    the visible characters. *)
Lemma collapse_spec (a b : str) (skip : nat) :
  skip ≤ run_length is_space a →
  let out := sub_from whitespace_run " " b a skip in
  single_spaced out = true
  ∧ (skip = run_length is_space a → ∀ x t, out = x :: t → is_space x = false)
  ∧ visible out = visible a.
Proof.
  revert b skip. induction a as [|c a IH]; intros b skip Hskip; [done|].
  destruct skip as [|n].
  - cbn [sub_from]. rewrite whitespace_run_at. cbn [run_length] in *.
    destruct (is_space c) eqn:Hsp.
    + unfold span. cbn [rest]. rewrite length_drop.
      pose proof (run_length_le is_space a).
      replace (length (c :: a) - (length (c :: a) - S (run_length is_space a)))
        with (S (run_length is_space a)) by (simpl; lia).
      destruct (IH (c :: b) (run_length is_space a)) as (IH1 & IH2 & IH3); [lia|].
      split_and!.
      * change (" " ++ ?t) with (" "%char :: t). cbn [single_spaced].
        rewrite IH1, andb_true_r.
        destruct (sub_from _ _ _ _ _) as [|x t] eqn:Hout; [done|].
        by rewrite (IH2 eq_refl x t eq_refl).
      * done.
      * change (" " ++ ?t) with (" "%char :: t).
        by rewrite !visible_space.
    + destruct (IH (c :: b) 0) as (IH1 & _ & IH3); [lia|]. split_and!.
      * cbn [single_spaced]. by rewrite Hsp, IH1.
      * by intros _ x t [= <- _].
      * by rewrite !visible_char, IH3.
  - cbn [run_length] in Hskip. destruct (is_space c) eqn:Hsp; [|lia].
    cbn [sub_from]. destruct (IH (c :: b) n) as (IH1 & IH2 & IH3); [lia|].
    split_and!; [done| |].
    + cbn [run_length]. rewrite Hsp. intros [= ->]. by apply IH2.
    + by rewrite visible_space.
Qed.

(** On a single-spaced text there is nothing to collapse. *)
Lemma collapse_single_spaced (a b : str) :
  single_spaced a = true → sub_from whitespace_run " " b a 0 = a.
Proof.
  revert b. induction a as [|c a IH]; intros b; [done|]. cbn [single_spaced].
  intros [Hc Ha]%andb_true_iff. cbn [sub_from]. rewrite whitespace_run_at.
  destruct (is_space c) eqn:Hsp.
  - apply andb_true_iff in Hc as [->%Ascii.eqb_eq Hnext].
    assert (run_length is_space a = 0) as Hrun.
    { destruct a as [|x a]; [done|]. simpl. by destruct (is_space x). }
    unfold span. cbn [rest run_length]. rewrite Hsp, Hrun. simpl.
    replace (S (length a) - length (drop 0 a)) with 1 by (rewrite drop_0; lia).
    f_equal. by apply IH.
  - f_equal. by apply IH.
Qed.

(** The characters of ASCII: on them the white space of Python's [\s] and
    [str.strip] is the white space of [is_space]. *)
Definition is_ascii (c : ascii) : bool := code c <? 128.

(** X1. [clean_text] returns a text in which every white-space character is
    a single space between two visible characters: none at either end, no two
    side by side.  Cleaning a second time changes nothing.  On a text of
    ASCII characters the visible characters of the result are those of the
    input, in the same order. *)
Theorem clean_text_normal_form (text : str) :
  single_spaced (clean_text text) = true
  ∧ strip (clean_text text) = clean_text text
  ∧ clean_text (clean_text text) = clean_text text
  ∧ (forallb is_ascii text = true → visible (clean_text text) = visible text).
Proof.
  assert (clean_text text = strip (sub whitespace_run " " text)) as Hclean
    by (by destruct text).
  destruct (collapse_spec text [] 0) as (Hss & _ & Hvis); [lia|].
  fold (sub whitespace_run " " text) in Hss, Hvis.
  assert (single_spaced (clean_text text) = true) as Hsingle
    by (rewrite Hclean; by apply single_spaced_strip).
  assert (strip (clean_text text) = clean_text text) as Hstrip
    by (rewrite Hclean; apply strip_idempotent).
  split_and!; [done|done| |by intros _; rewrite Hclean, visible_strip].
  destruct (clean_text text) as [|c t] eqn:Hct; [done|].
  unfold clean_text at 1. unfold sub.
  by rewrite collapse_single_spaced.
Qed.

Lemma clean_text_normal_form_witness :
  let text : str := "  Rockets   for" ++ ["010"%char; "009"%char] ++ "everyone " in
  forallb is_ascii text = true
  ∧ visible (clean_text text) = visible text.
Proof.
  intros text.
  assert (forallb is_ascii text = true) as Hascii by reflexivity.
  split; [exact Hascii|].
  exact (proj2 (proj2 (proj2 (clean_text_normal_form text))) Hascii).
Defined.

(** ** Identity fields are trimmed (extractor.py, [extract_identity]) *)

(** X2. The tagline never begins or ends with white space, and is empty when
    the page has no [h1]; a name taken from a non-empty title is trimmed as
    well. *)
Theorem extract_identity_trimmed `{Urllib} (soup : Soup) (url : str) :
  strip (tagline (extract_identity soup url)) = tagline (extract_identity soup url)
  ∧ (soup_h1 soup = None → tagline (extract_identity soup url) = [])
  ∧ (∀ t, title_string soup = Some t → t ≠ [] →
       strip (company_name (extract_identity soup url))
       = company_name (extract_identity soup url)).
Proof.
  split_and!.
  - unfold extract_identity. simpl. destruct (soup_h1 soup); [|done].
    apply strip_idempotent.
  - unfold extract_identity. simpl. by intros ->.
  - intros t Ht Hne. rewrite (extract_identity_titled soup url t Ht Hne).
    rewrite name_of_title_rule.
    repeat (destruct (contains _ t)); apply strip_idempotent.
Qed.

Lemma extract_identity_trimmed_witness :
  title_string Canned.home_soup = Some ("Home | Acme Rockets" : str)
  ∧ strip (company_name (@extract_identity Canned.urllib Canned.home_soup Canned.home))
    = company_name (@extract_identity Canned.urllib Canned.home_soup Canned.home).
Proof.
  split; [reflexivity|].
  apply (proj2 (proj2 (@extract_identity_trimmed Canned.urllib Canned.home_soup Canned.home))
           "Home | Acme Rockets"); [reflexivity|discriminate].
Defined.

(** ** Internal links (utils.py, [get_internal_links]) *)

(** X3. [get_internal_links] returns, without repetition, exactly the
    resolved links whose network location is that of the base URL.  When
    [urljoin] leaves the URLs it has resolved unchanged, filtering the result
    again gives the same links. *)
Theorem get_internal_links_same_host `{SetOrder} `{Urllib} (base_url : str) (links : list str) :
  NoDup (get_internal_links base_url links)
  ∧ (∀ full, full ∈ get_internal_links base_url links
       ↔ (∃ link, link ∈ links ∧ full = urljoin base_url link)
         ∧ urlparse_netloc full = urlparse_netloc base_url)
  ∧ ((∀ link, urljoin base_url (urljoin base_url link) = urljoin base_url link) →
     get_internal_links base_url (get_internal_links base_url links)
     ≡ₚ get_internal_links base_url links).
Proof.
  assert (∀ ls full, full ∈ get_internal_links base_url ls
       ↔ (∃ link, link ∈ ls ∧ full = urljoin base_url link)
         ∧ urlparse_netloc full = urlparse_netloc base_url) as Hmem.
  { intros ls full. unfold get_internal_links.
    rewrite list_of_set_elem, list_elem_of_In, List.filter_In, <-list_elem_of_In,
      list_elem_of_fmap, bool_decide_eq_true.
    split; intros [(link & Ha & Hb) Hhost]; (split; [exists link|]); done. }
  split_and!; [apply list_of_set_NoDup|apply Hmem|].
  intros Hfix. apply NoDup_Permutation; [apply list_of_set_NoDup..|].
  intros full. rewrite (Hmem (get_internal_links base_url links)). split.
  - intros [(link & Hlink & ->) Hhost]. rewrite Hmem in Hlink.
    destruct Hlink as [(l0 & Hl0 & ->) Hhost0]. rewrite Hfix. apply Hmem. eauto.
  - intros Hfull. pose proof Hfull as [(l0 & Hl0 & Heq) Hhost]%Hmem.
    split; [|done]. exists full. split; [done|]. by rewrite Heq, Hfix.
Qed.

Lemma get_internal_links_same_host_witness :
  (∀ link, @urljoin Canned.urllib Canned.home (@urljoin Canned.urllib Canned.home link)
           = @urljoin Canned.urllib Canned.home link)
  ∧ @get_internal_links insertion_order Canned.urllib Canned.home
      (@get_internal_links insertion_order Canned.urllib Canned.home
         ["/about"; "https://twitter.com/acme"; "/about"])
    ≡ₚ @get_internal_links insertion_order Canned.urllib Canned.home
         ["/about"; "https://twitter.com/acme"; "/about"].
Proof.
  assert (∀ link, @urljoin Canned.urllib Canned.home (@urljoin Canned.urllib Canned.home link)
                  = @urljoin Canned.urllib Canned.home link) as Hfix.
  { intros link. simpl. unfold Canned.join_url.
    destruct (startswith "http" link) eqn:Hl; [by rewrite Hl|done]. }
  split; [exact Hfix|].
  apply (proj2 (proj2 (@get_internal_links_same_host insertion_order Canned.urllib
                         Canned.home ["/about"; "https://twitter.com/acme"; "/about"]))).
  exact Hfix.
Defined.

(** ** What a run is made of (runner.py, [run]) *)

(** The documents brought back by a sequence of attempts: the pages that
    loaded with a non-empty source. *)
Definition documents (attempts : list (str * outcome)) : list (str * str) :=
  omap (λ a, match a.2 with
             | Loaded (c :: src) => Some (a.1, c :: src)
             | _ => None
             end) attempts.

Lemma join_cons (sep p : str) (ps : list str) :
  join sep (p :: ps) = p ++ concat ((λ q, sep ++ q) <$> ps).
Proof.
  revert p. induction ps as [|q ps IH]; intros p; [by rewrite app_nil_r|].
  change (join sep (p :: q :: ps)) with (p ++ sep ++ join sep (q :: ps)).
  rewrite IH. simpl. by rewrite <-app_assoc.
Qed.

Lemma elem_of_documents (attempts : list (str * outcome)) (u src : str) :
  (u, src) ∈ documents attempts ↔ (u, Loaded src) ∈ attempts ∧ src ≠ [].
Proof.
  unfold documents. rewrite list_elem_of_omap. split.
  - intros ([u' o] & Hin & Heq). simpl in Heq.
    destruct o as [[|c s]|]; try done. by injection Heq as <- <-.
  - intros [Hin Hne]. exists (u, Loaded src). split; [done|]. simpl.
    by destruct src.
Qed.

Lemma documents_delivered (attempts : list (str * outcome)) :
  (documents attempts).*1 = (List.filter delivered attempts).*1.
Proof.
  induction attempts as [|[u o] attempts IH]; [done|].
  unfold documents in *. unfold delivered at 1. simpl.
  destruct o as [[|c s]|]; simpl; [exact IH|f_equal; exact IH|exact IH].
Qed.

Lemma elem_of_filter_bool {A} (f : A → bool) (l : list A) (x : A) :
  x ∈ List.filter f l ↔ x ∈ l ∧ f x = true.
Proof. by rewrite !list_elem_of_In, List.filter_In. Qed.

Section RunTrace.

Context `{SetOrder} `{Browser} `{Parser} `{Urllib} `{Clock}.

(** The text of a fetched page. *)
Definition page_text (src : str) : str := get_visible_text (parse_html src).

(** The entry of [page_contents] made for a fetched page. *)
Definition details_of (src : str) : PageDetails :=
  {| text_preview := take 500 (page_text src);
     page_title := title_string (parse_html src);
     headings := strip <$> take 5 (soup_headings (parse_html src)) |}.

(** What one turn of the loop does with a document. *)
Definition absorb (acc : Crawl) (doc : str * str) : Crawl :=
  {| all_text := all_text acc ++ " " ++ page_text doc.2;
     visited_pages := visited_pages acc ++ [doc.1];
     page_contents := <[doc.1 := details_of doc.2]> (page_contents acc);
     social_set :=
       social_set acc ++ List.filter is_social_link (soup_hrefs (parse_html doc.2)) |}.

Lemma visit_absorb (acc : Crawl) (page_url : str) (w : World) :
  ∃ o d, (visit acc page_url w).2
         = {| driver := d; fetched := fetched w ++ [(page_url, o)] |}
       ∧ (visit acc page_url w).1 = foldl absorb acc (documents [(page_url, o)]).
Proof.
  unfold visit, mbind, state_bind, mret, state_ret.
  destruct (fetch_page_spec page_url w) as (d & _ & Hw & Hr).
  destruct (fetch_page page_url w) as [[page_html err] w']. simpl in *. subst w'.
  exists (driver_get (driver w) page_url).2, d.
  by destruct (driver_get (driver w) page_url).2 as [[|c src]|msg];
    injection Hr as -> ->.
Qed.

Lemma documents_app (l1 l2 : list (str * outcome)) :
  documents (l1 ++ l2) = documents l1 ++ documents l2.
Proof. unfold documents. apply omap_app. Qed.

Lemma for_each_visit_fold (items : list str) (acc : Crawl) (w : World) :
  ∃ attempts d,
    (for_each visit acc items w).2
    = {| driver := d; fetched := fetched w ++ attempts |}
    ∧ attempts.*1 = items
    ∧ (for_each visit acc items w).1 = foldl absorb acc (documents attempts).
Proof.
  revert acc w. induction items as [|page_url items IH]; intros acc w; simpl.
  - exists [], (driver w). rewrite app_nil_r. by destruct w.
  - unfold mbind, state_bind.
    destruct (visit_absorb acc page_url w) as (o & d1 & Hw1 & Hacc1).
    destruct (visit acc page_url w) as [acc1 w1]. simpl in Hw1, Hacc1. subst w1.
    destruct (IH acc1 {| driver := d1; fetched := fetched w ++ [(page_url, o)] |})
      as (attempts & d & Hw2 & Hitems & Hacc2).
    exists ((page_url, o) :: attempts), d. split_and!.
    + rewrite Hw2. simpl. by rewrite <-app_assoc.
    + by rewrite fmap_cons, Hitems.
    + rewrite Hacc2, Hacc1.
      change ((page_url, o) :: attempts) with ([(page_url, o)] ++ attempts).
      by rewrite documents_app, foldl_app.
Qed.

Lemma absorb_all_text (docs : list (str * str)) (acc : Crawl) :
  all_text (foldl absorb acc docs)
  = all_text acc ++ concat ((λ doc, " " ++ page_text doc.2) <$> docs).
Proof.
  revert acc. induction docs as [|doc docs IH]; intros acc; simpl.
  - by rewrite app_nil_r.
  - rewrite IH. simpl. by rewrite <-!app_assoc.
Qed.

Lemma absorb_visited (docs : list (str * str)) (acc : Crawl) :
  visited_pages (foldl absorb acc docs) = visited_pages acc ++ docs.*1.
Proof.
  revert acc. induction docs as [|doc docs IH]; intros acc; simpl.
  - by rewrite app_nil_r.
  - rewrite IH. simpl. by rewrite <-app_assoc.
Qed.

Lemma absorb_social (docs : list (str * str)) (acc : Crawl) (link : str) :
  link ∈ social_set (foldl absorb acc docs) ↔
  link ∈ social_set acc
  ∨ ∃ doc, doc ∈ docs ∧ link ∈ soup_hrefs (parse_html doc.2)
           ∧ is_social_link link = true.
Proof.
  revert acc. induction docs as [|doc docs IH]; intros acc; simpl.
  - split; [by left|]. intros [?|(doc & ?%elem_of_nil & _)]; done.
  - rewrite IH. simpl. rewrite elem_of_app, elem_of_filter_bool. split.
    + intros [[?|[? ?]]|(d & ? & ?)]; [by left|right..].
      * exists doc. split; [left|done].
      * exists d. split; [by right|done].
    + intros [?|(d & [->|?]%elem_of_cons & ? & ?)]; [by left; left|by left; right|].
      right. by exists d.
Qed.

Lemma absorb_contents (docs : list (str * str)) (acc : Crawl) :
  dom (page_contents (foldl absorb acc docs))
  = dom (page_contents acc) ∪ list_to_set docs.*1
  ∧ ∀ u d, page_contents (foldl absorb acc docs) !! u = Some d →
      page_contents acc !! u = Some d
      ∨ ∃ src, (u, src) ∈ docs ∧ d = details_of src.
Proof.
  revert acc. induction docs as [|[u0 src0] docs IH]; intros acc; simpl.
  - split; [by rewrite union_empty_r_L|]. intros u d ?. by left.
  - destruct (IH (absorb acc (u0, src0))) as [Hdom Hlook]. split.
    + rewrite Hdom. simpl. rewrite dom_insert_L.
      rewrite (union_comm_L {[u0]} (dom _)). by rewrite union_assoc_L.
    + intros u d [Hin|(src & Hin & ->)]%Hlook.
      * simpl in Hin. destruct (decide (u0 = u)) as [->|Hne].
        -- rewrite lookup_insert_eq in Hin. injection Hin as <-.
           right. exists src0. split; [left|done].
        -- rewrite lookup_insert_ne in Hin by done. by left.
      * right. exists src. split; [by right|done].
Qed.

(** The result of a run whose homepage was delivered, from the documents of
    the priority pages. *)
Definition result_of (url html : str) (docs : list (str * str)) : Result :=
  let text := join " " (page_text html :: ((λ doc, page_text doc.2) <$> docs)) in
  let crawl := foldl absorb {| all_text := page_text html; visited_pages := [];
                               page_contents := ∅; social_set := [] |} docs in
  {| metadata := {| timestamp := now; pages_crawled := 1 + length docs;
                    errors := [] |};
     identity := Some (extract_identity (parse_html html) url);
     contacts := Some (extract_contacts text);
     social_links := Some (categorize_social_links (list_of_set (social_set crawl)));
     description := Some (extract_company_description text);
     business_info := Some (extract_business_info text);
     key_pages := Some {| visited := docs.*1; page_details := page_contents crawl |} |}.

(** A run whose homepage is delivered: the fetches made, the final state and
    the result. *)
Lemma run_delivered (url html : str) (w : World) :
  (driver_get (driver w) url).2 = Loaded html → html ≠ [] →
  ∃ attempts d,
    attempts.*1
    = take MAX_PAGES
        (filter_priority_pages (get_internal_links url (extract_links (parse_html html))))
    ∧ (run url w).2
      = {| driver := driver_quit d;
           fetched := fetched w ++ (url, Loaded html) :: attempts |}
    ∧ (run url w).1 = result_of url html (documents attempts).
Proof.
  intros Ho Hhtml. unfold run, mbind, state_bind, mret, state_ret.
  destruct (fetch_page_spec url w) as (d0 & _ & Hw & Hr).
  destruct (fetch_page url w) as [[page error] w1]. simpl in Hw, Hr.
  rewrite Ho in Hw, Hr. injection Hr as -> ->. subst w1.
  destruct html as [|c html]; [done|]. simpl.
  match goal with |- context [for_each _ ?acc ?items ?w1] =>
    destruct (for_each_visit_fold items acc w1) as (attempts & d & Hw2 & Hitems & Hacc);
    destruct (for_each visit acc items w1) as [crawl w2]
  end.
  simpl in *. subst w2 crawl. exists attempts, d. split_and!; [done| |].
  - unfold quit. simpl. by rewrite <-app_assoc.
  - unfold result_of. rewrite join_cons, absorb_all_text, absorb_visited.
    simpl. rewrite length_fmap. by rewrite <-list_fmap_compose.
Qed.

(** The pages selected for a visit: resolved links of the homepage, on the
    host of the site, with a priority keyword, each one once. *)
Lemma selected_pages (url : str) (hrefs : list str) :
  let pages := take MAX_PAGES (filter_priority_pages (get_internal_links url hrefs)) in
  NoDup pages
  ∧ ∀ page, page ∈ pages →
      urlparse_netloc page = urlparse_netloc url
      ∧ is_priority page = true
      ∧ ∃ href, href ∈ hrefs ∧ page = urljoin url href.
Proof.
  intros pages.
  assert (pages `sublist_of` filter_priority_pages (get_internal_links url hrefs))
    as Hsub by apply sublist_take.
  split.
  - eapply sublist_NoDup; [|exact Hsub]. apply list_of_set_NoDup.
  - intros page Hpage. eapply elem_of_sublist in Hpage; [|exact Hsub].
    unfold filter_priority_pages, get_internal_links in Hpage.
    rewrite list_of_set_elem, elem_of_filter_bool, list_of_set_elem,
      elem_of_filter_bool, list_elem_of_fmap, bool_decide_eq_true in Hpage.
    destruct Hpage as [[(href & -> & Hhref) Hhost] Hprio]. eauto.
Qed.

(** X4. After a delivered homepage the run stays on the site: each page it
    fetches after the homepage is a link of the homepage resolved against the
    site URL, has the network location of the site and carries a priority
    keyword, and among these fetches no URL occurs twice.  (The URL of the
    homepage is not excluded from them.) *)
Theorem run_stays_on_site (url html : str) (w : World) :
  (driver_get (driver w) url).2 = Loaded html → html ≠ [] →
  ∃ attempts,
    fetched (run url w).2 = fetched w ++ (url, Loaded html) :: attempts
    ∧ NoDup attempts.*1
    ∧ ∀ page, page ∈ attempts.*1 →
        urlparse_netloc page = urlparse_netloc url
        ∧ is_priority page = true
        ∧ ∃ href, href ∈ soup_hrefs (parse_html html) ∧ page = urljoin url href.
Proof.
  intros Ho Hhtml.
  destruct (run_delivered url html w Ho Hhtml) as (attempts & d & Hitems & Hw & _).
  exists attempts. rewrite Hw, Hitems. split; [done|].
  apply selected_pages.
Qed.

(** *** The text that is analysed *)

(** Every white-space character of [s] is a space. *)
Definition spaces_only (s : str) : Prop :=
  ∀ c, c ∈ s → is_space c = true → c = " "%char.

Lemma single_spaced_spaces_only (s : str) : single_spaced s = true → spaces_only s.
Proof.
  induction s as [|x s IH]; intros Hs c Hc Hsp; [by apply elem_of_nil in Hc|].
  cbn [single_spaced] in Hs. apply andb_true_iff in Hs as [Hx Hs].
  apply elem_of_cons in Hc as [->|Hc]; [|by apply IH].
  rewrite Hsp in Hx. by apply andb_true_iff in Hx as [Hx%Ascii.eqb_eq _].
Qed.

Lemma clean_text_single_spaced (text : str) : single_spaced (clean_text text) = true.
Proof.
  destruct text as [|c t]; [done|]. unfold clean_text. apply single_spaced_strip.
  by destruct (collapse_spec (c :: t) [] 0) as (Hss & _ & _); [lia|].
Qed.

Lemma join_spaces_only (parts : list str) :
  Forall spaces_only parts → spaces_only (join " " parts).
Proof.
  induction 1 as [|p ps Hp Hps IH]; [by intros c ?%elem_of_nil|].
  destruct ps as [|q ps]; [done|].
  change (join " " (p :: q :: ps)) with (p ++ " "%char :: join " " (q :: ps)).
  intros c [Hc|[->|Hc]%elem_of_cons]%elem_of_app Hsp; [by apply Hp|done|by apply IH].
Qed.

(** A text whose white space is made of spaces is a single line. *)
Lemma spaces_only_one_line (s : str) : spaces_only s → split "010" s = [s].
Proof.
  intros Hs. apply split_absent. rewrite contains_char.
  apply not_true_iff_false. intros (c & Hin%list_elem_of_In & <-%Ascii.eqb_eq)%existsb_exists.
  by specialize (Hs _ Hin eq_refl).
Qed.

Lemma aggregated_spaces_only (html : str) (docs : list (str * str)) :
  spaces_only (join " " (page_text html :: ((λ doc, page_text doc.2) <$> docs))).
Proof.
  apply join_spaces_only. constructor.
  - apply single_spaced_spaces_only, clean_text_single_spaced.
  - apply Forall_fmap, Forall_forall. intros doc _.
    apply single_spaced_spaces_only, clean_text_single_spaced.
Qed.

(** X5. The contacts, the description and the business information of a run
    are computed from one text: the visible text of the homepage followed by
    the visible text of every priority page that delivered a document, in the
    order of the visits, with one space in between.  Pages that failed add
    nothing, and the only white space in that text is the space. *)
Theorem run_text_of_delivered_pages (url html : str) (w : World) :
  (driver_get (driver w) url).2 = Loaded html → html ≠ [] →
  ∃ attempts text,
    fetched (run url w).2 = fetched w ++ (url, Loaded html) :: attempts
    ∧ text = join " " (page_text html
                        :: ((λ doc, page_text doc.2) <$> documents attempts))
    ∧ contacts (run url w).1 = Some (extract_contacts text)
    ∧ description (run url w).1 = Some (extract_company_description text)
    ∧ business_info (run url w).1 = Some (extract_business_info text)
    ∧ spaces_only text.
Proof.
  intros Ho Hhtml.
  destruct (run_delivered url html w Ho Hhtml) as (attempts & d & _ & Hw & Hr).
  eexists attempts, _. rewrite Hw, Hr. split_and!; try reflexivity.
  apply aggregated_spaces_only.
Qed.

(** *** Services of a run *)

Lemma list_of_set_singleton (x : str) : list_of_set [x] = [x].
Proof.
  pose proof (list_of_set_NoDup [x]) as Hnd.
  pose proof (list_of_set_elem [x]) as Hel.
  destruct (list_of_set [x]) as [|a [|b l]].
  - specialize (Hel x). rewrite elem_of_nil, list_elem_of_singleton in Hel. tauto.
  - f_equal. apply list_elem_of_singleton, Hel. left.
  - assert (a = x) as -> by (apply list_elem_of_singleton, Hel; left).
    assert (b = x) as -> by (apply list_elem_of_singleton, Hel; right; left).
    apply NoDup_cons in Hnd as [Hnd _]. exfalso. apply Hnd. left.
Qed.

(** On a text of one line the services are that line or nothing. *)
Lemma services_one_line (text : str) :
  split "010" text = [text] →
  extract_services_and_products text
  = if is_service_line text then [strip text] else [].
Proof.
  intros Hline. destruct text as [|c t]; [done|].
  unfold extract_services_and_products. rewrite Hline.
  change (take 50 [c :: t]) with [c :: t]. cbn [List.filter].
  destruct (is_service_line (c :: t)); cbn [fmap list_fmap].
  - by rewrite list_of_set_singleton.
  - by rewrite list_of_set_nil.
Qed.

Lemma is_service_line_length (line : str) :
  is_service_line line = true → 15 < length line < 200.
Proof.
  unfold is_service_line. destruct (strip (lower line)); [done|].
  destruct (_ <? 10); [done|].
  intros (keyword & _ & [[_ Hlo%Nat.ltb_lt]%andb_true_iff Hhi%Nat.ltb_lt]%andb_true_iff)%existsb_exists.
  lia.
Qed.

(** X6. In a run the text handed to the services extractor has no line
    break left, so it is read as one line: [services] is empty or holds one
    entry, the whole analysed text stripped.  In the second case that text,
    and so the visible text of the homepage, is shorter than 200
    characters. *)
Theorem run_services_single_line (url html : str) (w : World) :
  (driver_get (driver w) url).2 = Loaded html → html ≠ [] →
  ∃ attempts text info,
    fetched (run url w).2 = fetched w ++ (url, Loaded html) :: attempts
    ∧ text = join " " (page_text html
                        :: ((λ doc, page_text doc.2) <$> documents attempts))
    ∧ business_info (run url w).1 = Some info
    ∧ (services info = []
       ∨ services info = [strip text]
         ∧ length (page_text html) ≤ length text < 200).
Proof.
  intros Ho Hhtml.
  destruct (run_delivered url html w Ho Hhtml) as (attempts & d & _ & Hw & Hr).
  eexists attempts, _, _. rewrite Hw, Hr.
  split; [reflexivity|]. split; [reflexivity|]. split; [reflexivity|].
  cbn [services extract_business_info].
  rewrite services_one_line
    by apply spaces_only_one_line, aggregated_spaces_only.
  destruct (is_service_line _) eqn:Hline; [|by left].
  apply is_service_line_length in Hline. right. split; [done|].
  split; [|lia]. rewrite join_cons, length_app. lia.
Qed.

(** *** Page details *)

Lemma documents_sublist (attempts : list (str * outcome)) :
  (documents attempts).*1 `sublist_of` attempts.*1.
Proof.
  induction attempts as [|[u o] attempts IH]; [done|].
  unfold documents in *. simpl.
  destruct o as [[|c src]|msg]; simpl;
    [by apply sublist_cons|by apply sublist_skip|by apply sublist_cons].
Qed.

Lemma absorb_untouched (docs : list (str * str)) (acc : Crawl) (u : str) :
  u ∉ docs.*1 →
  page_contents (foldl absorb acc docs) !! u = page_contents acc !! u.
Proof.
  revert acc. induction docs as [|[u0 src0] docs IH]; intros acc Hu; [done|].
  simpl in *. apply not_elem_of_cons in Hu as [Hne Hu].
  rewrite IH by done. simpl. by rewrite lookup_insert_ne.
Qed.

(** When no page occurs twice, the entry of a page is made from its own
    document. *)
Lemma absorb_lookup (docs : list (str * str)) (acc : Crawl) (u src : str) :
  NoDup docs.*1 → (u, src) ∈ docs →
  page_contents (foldl absorb acc docs) !! u = Some (details_of src).
Proof.
  revert acc. induction docs as [|[u0 src0] docs IH]; intros acc Hnd Hin.
  - by apply elem_of_nil in Hin.
  - simpl in *. apply NoDup_cons in Hnd as [Hu0 Hnd].
    apply elem_of_cons in Hin as [[= -> ->]|Hin]; [|by apply IH].
    rewrite absorb_untouched by done. simpl. by rewrite lookup_insert_eq.
Qed.

Lemma details_of_bounds (src : str) :
  length (text_preview (details_of src)) ≤ 500
  ∧ text_preview (details_of src) `prefix_of` page_text src
  ∧ length (headings (details_of src)) ≤ 5
  ∧ ∀ h, h ∈ headings (details_of src) → strip h = h.
Proof.
  unfold details_of. simpl. split_and!.
  - rewrite length_take. lia.
  - apply prefix_take.
  - rewrite length_fmap, length_take. lia.
  - intros h (h0 & -> & _)%list_elem_of_fmap. apply strip_idempotent.
Qed.

(** X7. [page_details] has one entry for each visited page and no other.
    The entry of a page is made from the document that page delivered: its
    [text_preview] is the beginning of the visible text of the page, 500
    characters at most, and its [headings] are at most five, each one
    trimmed. *)
Theorem run_page_details (url html : str) (w : World) :
  (driver_get (driver w) url).2 = Loaded html → html ≠ [] →
  ∃ attempts pages,
    fetched (run url w).2 = fetched w ++ (url, Loaded html) :: attempts
    ∧ key_pages (run url w).1 = Some pages
    ∧ dom (page_details pages) = list_to_set (visited pages)
    ∧ (∀ page src, (page, Loaded src) ∈ attempts → src ≠ [] →
         page_details pages !! page = Some (details_of src))
    ∧ ∀ page d, page_details pages !! page = Some d →
        length (text_preview d) ≤ 500
        ∧ (∃ src, (page, Loaded src) ∈ attempts
                  ∧ text_preview d `prefix_of` page_text src)
        ∧ length (headings d) ≤ 5
        ∧ ∀ h, h ∈ headings d → strip h = h.
Proof.
  intros Ho Hhtml.
  destruct (run_delivered url html w Ho Hhtml) as (attempts & d & Hitems & Hw & Hr).
  eexists attempts, _. rewrite Hw, Hr. split; [done|]. split; [reflexivity|].
  cbn [page_details visited result_of key_pages].
  match goal with |- context [foldl absorb ?acc _] => set (start := acc) end.
  destruct (absorb_contents (documents attempts) start) as [Hdom Hlook].
  assert (NoDup (documents attempts).*1) as Hnd.
  { eapply sublist_NoDup; [|apply documents_sublist]. rewrite Hitems.
    apply selected_pages. }
  split_and!.
  - rewrite Hdom. unfold start. simpl. by rewrite dom_empty_L, union_empty_l_L.
  - intros page src Hin Hsrc. apply absorb_lookup; [done|].
    by apply elem_of_documents.
  - intros page det [Hdet|(src & [Hin _]%elem_of_documents & ->)]%Hlook;
      [done|].
    destruct (details_of_bounds src) as (? & ? & ? & ?). eauto 10.
Qed.

(** *** Social links *)

(** A link that is stored is one of the links given. *)
Lemma categorize_values (links : list str) (p : string) (link : str) :
  categorize_social_links links !! p = Some link → link ∈ links.
Proof.
  induction links as [|l links IH] using rev_ind; [done|].
  rewrite categorize_snoc, categorize_step_platform, elem_of_app, list_elem_of_singleton.
  destruct (platform_of l) as [q|]; [|by left; apply IH].
  destruct (decide (q = p)) as [->|Hq].
  - rewrite lookup_insert_eq. intros [= ->]. by right.
  - rewrite lookup_insert_ne by done. by left; apply IH.
Qed.

(** X8. The social links of a result are collected from the documents
    delivered by the visits that follow the homepage fetch, not from the
    homepage document: every link stored is an [href], as written in the
    page, of such a document, and is accepted by [is_social_link]. *)
Theorem run_social_links_from_visited_pages (url html : str) (w : World) :
  (driver_get (driver w) url).2 = Loaded html → html ≠ [] →
  ∃ attempts socials,
    fetched (run url w).2 = fetched w ++ (url, Loaded html) :: attempts
    ∧ social_links (run url w).1 = Some socials
    ∧ ∀ p link, socials !! p = Some link →
        is_social_link link = true
        ∧ ∃ page src, (page, Loaded src) ∈ attempts ∧ src ≠ []
                      ∧ link ∈ soup_hrefs (parse_html src).
Proof.
  intros Ho Hhtml.
  destruct (run_delivered url html w Ho Hhtml) as (attempts & d & _ & Hw & Hr).
  eexists attempts, _. rewrite Hw, Hr. split; [done|]. split; [reflexivity|].
  intros p link Hin%categorize_values.
  rewrite list_of_set_elem, absorb_social in Hin.
  destruct Hin as [Hin|([page src] & [Hdoc Hsrc]%elem_of_documents & Hhref & Hsoc)];
    [by apply elem_of_nil in Hin|].
  split; [done|]. by exists page, src.
Qed.

(** *** The browser session *)

(** A browsing session: pages requested one after the other, each from the
    browser as the request before left it, with what the browser answered. *)
Fixpoint session (d : Driver) (urls : list str) : Driver * list (str * outcome) :=
  match urls with
  | [] => (d, [])
  | u :: urls' =>
      let '(d1, o) := driver_get d u in
      let '(d2, log) := session d1 urls' in
      (d2, (u, o) :: log)
  end.

Lemma for_each_visit_session (items : list str) (acc : Crawl) (w : World) :
  (for_each visit acc items w).2
  = {| driver := (session (driver w) items).1;
       fetched := fetched w ++ (session (driver w) items).2 |}.
Proof.
  revert acc w. induction items as [|page_url items IH]; intros acc w; simpl.
  - rewrite app_nil_r. by destruct w.
  - unfold mbind, state_bind, visit at 1, fetch_page, mbind, state_bind.
    destruct (driver_get (driver w) page_url) as [d1 o].
    destruct (session d1 items) as [d2 log] eqn:Hrest.
    destruct o as [[|c src]|msg]; simpl; rewrite IH; simpl; rewrite Hrest; simpl;
      by rewrite <-app_assoc.
Qed.

(** The pages requested by a run: the homepage, then the pages selected
    from it when it was delivered. *)
Definition requested (url : str) (o : outcome) : list str :=
  url :: match o with
         | Loaded ((_ :: _) as html) =>
             take MAX_PAGES
               (filter_priority_pages
                  (get_internal_links url (extract_links (parse_html html))))
         | _ => []
         end.

(** [run] is one session over the requested pages, closed at its end. *)
Lemma run_session (url : str) (w : World) :
  (run url w).2
  = {| driver :=
         driver_quit (session (driver w) (requested url (driver_get (driver w) url).2)).1;
       fetched :=
         fetched w ++ (session (driver w) (requested url (driver_get (driver w) url).2)).2 |}.
Proof.
  unfold run, requested, mbind, state_bind, mret, state_ret, fetch_page, quit.
  destruct (driver_get (driver w) url) as [d0 o] eqn:Hget.
  destruct o as [[|c src]|msg].
  - simpl. by rewrite Hget.
  - simpl.
    match goal with |- context [for_each _ ?acc ?items ?w1] =>
      pose proof (for_each_visit_session items acc w1) as Hs;
      destruct (for_each visit acc items w1) as [crawl w2]
    end.
    simpl in Hs. subst w2. simpl. rewrite Hget.
    destruct (session d0 _) as [d2 log]. simpl. by rewrite <-app_assoc.
  - simpl. rewrite Hget, orb_true_r. done.
Qed.

End RunTrace.

Section CannedTraces.

Import Canned.

(** On the canned site the link to Twitter stands on the homepage only, and
    the link to LinkedIn on a page that is visited. *)
Example run_canned_social_links :
  social_links (run Canned.home Canned.start).1
  = Some (<["linkedin" := ("https://www.linkedin.com/company/acme" : str)]> ∅).
Proof. by vm_compute. Qed.

Lemma run_stays_on_site_witness :
  (driver_get (driver Canned.start) Canned.home).2 = Loaded "HOME"
  ∧ ("HOME" : str) ≠ []
  ∧ ∃ attempts,
      fetched (run Canned.home Canned.start).2
      = fetched Canned.start ++ (Canned.home, Loaded "HOME") :: attempts
      ∧ NoDup attempts.*1
      ∧ ∀ page, page ∈ attempts.*1 →
          urlparse_netloc page = urlparse_netloc Canned.home
          ∧ is_priority page = true
          ∧ ∃ href, href ∈ soup_hrefs (parse_html "HOME")
                    ∧ page = urljoin Canned.home href.
Proof.
  split; [reflexivity|]. split; [discriminate|].
  apply (run_stays_on_site Canned.home "HOME" Canned.start); [reflexivity|discriminate].
Defined.

(** The homepage can be among the pages fetched after it: here it is
    fetched twice. *)
Example run_fetches_homepage_again :
  fetched (@run Canned.order SelfLink.browser SelfLink.parser Canned.urllib
             Canned.clock SelfLink.home SelfLink.start).2
  = [(SelfLink.home, Loaded "HOME"); (SelfLink.home, Loaded "HOME")].
Proof. vm_compute. reflexivity. Qed.

Lemma run_text_of_delivered_pages_witness :
  (driver_get (driver Canned.start) Canned.home).2 = Loaded "HOME"
  ∧ ("HOME" : str) ≠ []
  ∧ ∃ attempts text,
      fetched (run Canned.home Canned.start).2
      = fetched Canned.start ++ (Canned.home, Loaded "HOME") :: attempts
      ∧ text = join " " (page_text "HOME"
                          :: ((λ doc, page_text doc.2) <$> documents attempts))
      ∧ contacts (run Canned.home Canned.start).1 = Some (extract_contacts text)
      ∧ description (run Canned.home Canned.start).1
        = Some (extract_company_description text)
      ∧ business_info (run Canned.home Canned.start).1
        = Some (extract_business_info text)
      ∧ spaces_only text.
Proof.
  split; [reflexivity|]. split; [discriminate|].
  apply (run_text_of_delivered_pages Canned.home "HOME" Canned.start);
    [reflexivity|discriminate].
Defined.

Lemma run_services_single_line_witness :
  (driver_get (driver Canned.start) Canned.home).2 = Loaded "HOME"
  ∧ ("HOME" : str) ≠ []
  ∧ ∃ attempts text info,
      fetched (run Canned.home Canned.start).2
      = fetched Canned.start ++ (Canned.home, Loaded "HOME") :: attempts
      ∧ text = join " " (page_text "HOME"
                          :: ((λ doc, page_text doc.2) <$> documents attempts))
      ∧ business_info (run Canned.home Canned.start).1 = Some info
      ∧ (services info = []
         ∨ services info = [strip text]
           ∧ length (page_text "HOME") ≤ length text < 200).
Proof.
  split; [reflexivity|]. split; [discriminate|].
  apply (run_services_single_line Canned.home "HOME" Canned.start);
    [reflexivity|discriminate].
Defined.

Lemma run_page_details_witness :
  (driver_get (driver Canned.start) Canned.home).2 = Loaded "HOME"
  ∧ ("HOME" : str) ≠ []
  ∧ ∃ attempts pages,
      fetched (run Canned.home Canned.start).2
      = fetched Canned.start ++ (Canned.home, Loaded "HOME") :: attempts
      ∧ key_pages (run Canned.home Canned.start).1 = Some pages
      ∧ dom (page_details pages) = list_to_set (visited pages)
      ∧ (∀ page src, (page, Loaded src) ∈ attempts → src ≠ [] →
           page_details pages !! page = Some (details_of src))
      ∧ ∀ page d, page_details pages !! page = Some d →
          length (text_preview d) ≤ 500
          ∧ (∃ src, (page, Loaded src) ∈ attempts
                    ∧ text_preview d `prefix_of` page_text src)
          ∧ length (headings d) ≤ 5
          ∧ ∀ h, h ∈ headings d → strip h = h.
Proof.
  split; [reflexivity|]. split; [discriminate|].
  apply (run_page_details Canned.home "HOME" Canned.start); [reflexivity|discriminate].
Defined.

Lemma run_social_links_from_visited_pages_witness :
  (driver_get (driver Canned.start) Canned.home).2 = Loaded "HOME"
  ∧ ("HOME" : str) ≠ []
  ∧ ∃ attempts socials,
      fetched (run Canned.home Canned.start).2
      = fetched Canned.start ++ (Canned.home, Loaded "HOME") :: attempts
      ∧ social_links (run Canned.home Canned.start).1 = Some socials
      ∧ ∀ p link, socials !! p = Some link →
          is_social_link link = true
          ∧ ∃ page src, (page, Loaded src) ∈ attempts ∧ src ≠ []
                        ∧ link ∈ soup_hrefs (parse_html src).
Proof.
  split; [reflexivity|]. split; [discriminate|].
  apply (run_social_links_from_visited_pages Canned.home "HOME" Canned.start);
    [reflexivity|discriminate].
Defined.

End CannedTraces.

(** *** The browser session of a run, with the exits by exception *)

Section RaisingSession.

Context `{SetOrder} `{Browser} `{Parser} `{Urllib} `{UrllibErrors} `{Clock}.

(** X9. A run that returns is one browser session closed once, at the end:
    it requests the homepage, then, when the homepage was delivered, the
    first eight of the selected priority pages one after the other, each
    request made on the browser as the request before left it, and calls
    [quit] after the last request; when the homepage fetch fails the homepage
    is the only request, and [quit] is still called.  When [urllib.parse]
    raises on the site URL or on a link of a delivered homepage, the homepage
    is the only request and the run ends by the exception without a call of
    [quit]. *)
Theorem run_is_one_session (url : str) (w : World) :
  let o := (driver_get (driver w) url).2 in
  let raised :=
    match o with
    | Loaded ((_ :: _) as html) => links_raise url (extract_links (parse_html html))
    | _ => false
    end in
  length (requested url o) ≤ 1 + MAX_PAGES
  ∧ (homepage_failed o = true → requested url o = [url])
  ∧ (raised = false →
     is_Some (run_exc url w).1
     ∧ (run_exc url w).2
       = {| driver := driver_quit (session (driver w) (requested url o)).1;
            fetched := fetched w ++ (session (driver w) (requested url o)).2 |})
  ∧ (raised = true →
     (run_exc url w).1 = None
     ∧ (run_exc url w).2
       = {| driver := (session (driver w) [url]).1;
            fetched := fetched w ++ (session (driver w) [url]).2 |}).
Proof.
  intros o raised. subst o raised. rewrite run_exc_spec.
  pose proof (run_session url w) as Hrun.
  destruct (fetch_page_spec url w) as (d & Hget & Hw & _).
  split_and!.
  - unfold requested. destruct (driver_get (driver w) url).2 as [[|c src]|msg];
      cbn [length]; rewrite ?length_take; lia.
  - unfold requested. by destruct (driver_get (driver w) url).2 as [[|c src]|msg].
  - destruct (driver_get (driver w) url).2 as [[|c src]|msg]; try (by intros _).
    by intros ->.
  - destruct (driver_get (driver w) url).2 as [[|c src]|msg] eqn:Ho; try done.
    intros ->. simpl. split; [done|]. by rewrite Hw, Hget.
Qed.

End RaisingSession.

Lemma run_is_one_session_witness :
  let o := (@driver_get Broken.browser (driver Broken.start) Canned.home).2 in
  o = Loaded "HOME"
  ∧ @links_raise Canned.urllib Broken.errors Canned.home
      (extract_links (@parse_html Broken.parser "HOME")) = true
  ∧ (@run_exc Canned.order Broken.browser Broken.parser Canned.urllib Broken.errors
       Canned.clock Canned.home Broken.start).1 = None
  ∧ (@run_exc Canned.order Broken.browser Broken.parser Canned.urllib Broken.errors
       Canned.clock Canned.home Broken.start).2
    = @Build_World Broken.browser
        (@session Broken.browser (driver Broken.start) [Canned.home]).1
        (fetched Broken.start
         ++ (@session Broken.browser (driver Broken.start) [Canned.home]).2)
  ∧ (@links_raise Canned.urllib Broken.errors Canned.home
       (extract_links (@parse_html Canned.parser "HOME")) = false
     ∧ is_Some (@run_exc Canned.order Canned.browser Canned.parser Canned.urllib
                  Broken.errors Canned.clock Canned.home Canned.start).1).
Proof.
  intros o. split; [reflexivity|].
  assert (@links_raise Canned.urllib Broken.errors Canned.home
            (extract_links (@parse_html Broken.parser "HOME")) = true) as Hraise
    by reflexivity.
  assert (@links_raise Canned.urllib Broken.errors Canned.home
            (extract_links (@parse_html Canned.parser "HOME")) = false) as Hfine
    by reflexivity.
  split; [exact Hraise|].
  pose proof (proj2 (proj2 (proj2
    (@run_is_one_session Canned.order Broken.browser Broken.parser Canned.urllib
       Broken.errors Canned.clock Canned.home Broken.start))) Hraise) as [Hnone Hstate].
  pose proof (proj1 (proj2 (proj2
    (@run_is_one_session Canned.order Canned.browser Canned.parser Canned.urllib
       Broken.errors Canned.clock Canned.home Canned.start))) Hfine) as [Hsome _].
  split; [exact Hnone|]. split; [exact Hstate|]. split; [exact Hfine|exact Hsome].
Defined.

(** ** Prices, tiers and customers (extractor.py) *)

Lemma filter_all {A} (f : A → bool) (l : list A) :
  (∀ x, x ∈ l → f x = true) → List.filter f l = l.
Proof.
  induction l as [|x l IH]; intros Hall; [done|]. simpl.
  rewrite (Hall x) by left. f_equal. apply IH. intros y Hy. apply Hall. by right.
Qed.

(** A match of the stand-alone pattern: two to five digits, then nothing or
    a point and two digits. *)
Lemma standalone_shape b m a :
  matches price_pattern_standalone b m a →
  ∃ d c, m = d ++ c ∧ forallb is_digit d = true ∧ 2 ≤ length d
         ∧ (c = [] ∨ ∃ dd, c = "."%char :: dd).
Proof.
  unfold price_pattern_standalone.
  intros (? & ? & -> & Hnb & Hm)%matches_cat. inverts Hnb.
  apply matches_cat in Hm as (? & ? & -> & Hw & Hm). inverts Hw.
  apply matches_cat in Hm as (d & ? & -> & (Hd & Hlen & _)%matches_rep & Hm).
  apply matches_cat in Hm as (c & ? & -> & Hc & Hz).
  apply matches_cat in Hz as (? & ? & -> & Hw & Hz). inverts Hw. inverts Hz.
  exists d, c. simpl. rewrite app_nil_r. split_and!; [done..|].
  apply matches_opt in Hc as [->|Hc]; [by left|]. right.
  apply matches_cat in Hc as (? & dd & -> & ->%matches_chr & _). by exists dd.
Qed.

(** The test made on a stand-alone match before it is added never fails. *)
Lemma standalone_kept b m a :
  matches price_pattern_standalone b m a →
  (0 <? length m) && isdigit m || contains "." m = true.
Proof.
  intros (d & c & -> & Hd & Hlen & [->|[dd ->]])%standalone_shape.
  - rewrite app_nil_r. destruct d as [|x d]; [simpl in Hlen; lia|].
    unfold isdigit. by rewrite Hd.
  - change ("." : str) with ["."%char].
    rewrite contains_char, existsb_app. cbn [existsb].
    rewrite Ascii.eqb_refl. cbn [orb]. by rewrite !orb_true_r.
Qed.

(** The members of [all_prices]: every match of the three patterns, the
    dollar-less ones with [$] put in front. *)
Lemma elem_of_all_prices_iff (text p : str) :
  p ∈ all_prices text ↔
  p ∈ findall price_pattern text
  ∨ ∃ m, p = "$" ++ m
         ∧ (m ∈ findall price_pattern_no_dollar text
            ∨ m ∈ findall price_pattern_standalone text).
Proof.
  split; [by intros [_ ?]%elem_of_all_prices|].
  unfold all_prices. rewrite filter_all.
  2:{ intros m (? & ? & _ & Hm)%findall_sound. eapply standalone_kept, Hm. }
  rewrite !elem_of_app, !list_elem_of_fmap.
  intros [Hp|(m & -> & [Hm|Hm])]; [by left|right; left|right; right].
  - exists m. split; [|done].
    pose proof Hm as (? & ? & _ & Hd%price_pattern_no_dollar_digit)%findall_sound.
    by rewrite Hd.
  - by exists m.
Qed.

(** X10. When fewer than five prices are returned nothing was left out:
    the prices are exactly the matches of the dollar pattern and the matches
    of the two dollar-less patterns with [$] put in front.  The test made on
    the stand-alone numbers before they are added removes none of them, so
    every number of two to five digits standing alone in the text is listed
    as a price. *)
Theorem extract_pricing_keeps_every_match `{SetOrder} (text : str) (info : PricingInfo) :
  extract_pricing text = Some info →
  length (prices info) < 5 →
  ∀ p, p ∈ prices info ↔
       p ∈ findall price_pattern text
       ∨ ∃ m, p = "$" ++ m
              ∧ (m ∈ findall price_pattern_no_dollar text
                 ∨ m ∈ findall price_pattern_standalone text).
Proof.
  destruct text as [|c text]; [done|]. intros [= <-]. cbn [prices].
  intros Hlen p. rewrite length_take in Hlen.
  rewrite take_ge by lia.
  by rewrite elem_of_sorted, list_of_set_elem, elem_of_all_prices_iff.
Qed.

Lemma extract_pricing_keeps_every_match_witness :
  let text : str := "Founded 2019, from 49/year" in
  ∃ info,
    @extract_pricing insertion_order text = Some info
    ∧ length (prices info) < 5
    ∧ (("$2019" : str) ∈ prices info ↔
       ("$2019" : str) ∈ findall price_pattern text
       ∨ ∃ m, ("$2019" : str) = "$" ++ m
              ∧ (m ∈ findall price_pattern_no_dollar text
                 ∨ m ∈ findall price_pattern_standalone text)).
Proof.
  intros text. eexists. split; [reflexivity|].
  assert (length (prices (default {| tiers := []; prices := [];
                                      trial_available := false;
                                      free_option := false |}
                            (@extract_pricing insertion_order text))) < 5) as Hlen
    by (vm_compute; lia).
  split; [exact Hlen|].
  exact (@extract_pricing_keeps_every_match insertion_order text _ eq_refl Hlen "$2019").
Defined.

(** X11. The order in which Python iterates over a set does not show in the
    prices: they are the same list for every order.  The other lists built
    from a set (tiers, target customers, e-mail addresses) are the same up to
    the order of their entries. *)
Theorem set_order_only_permutes (O1 O2 : SetOrder) (text : str) :
  prices <$> @extract_pricing O1 text = prices <$> @extract_pricing O2 text
  ∧ trial_available <$> @extract_pricing O1 text
    = trial_available <$> @extract_pricing O2 text
  ∧ free_option <$> @extract_pricing O1 text = free_option <$> @extract_pricing O2 text
  ∧ option_Forall2 (≡ₚ) (tiers <$> @extract_pricing O1 text)
                         (tiers <$> @extract_pricing O2 text)
  ∧ @extract_target_customers O1 text ≡ₚ @extract_target_customers O2 text
  ∧ @extract_emails O1 text ≡ₚ @extract_emails O2 text.
Proof.
  assert (∀ l, @list_of_set O1 l ≡ₚ @list_of_set O2 l) as Hperm.
  { intros l. apply NoDup_Permutation; [apply list_of_set_NoDup..|].
    intros x. by rewrite !list_of_set_elem. }
  split_and!.
  - destruct text as [|c text]; [done|]. simpl. f_equal. f_equal.
    by rewrite (@sorted_list_of_set O1), (@sorted_list_of_set O2).
  - by destruct text.
  - by destruct text.
  - destruct text as [|c text]; simpl; constructor. apply Hperm.
  - destruct text as [|c text]; [done|]. apply Hperm.
  - apply Hperm.
Qed.

(** *** Keywords *)

Lemma lower_char_idempotent (c : ascii) : lower_char (lower_char c) = lower_char c.
Proof. by_cases_on_char c. Qed.

Lemma lower_idempotent (s : str) : lower (lower s) = lower s.
Proof.
  unfold lower. rewrite map_map. apply map_ext. intros c. apply lower_char_idempotent.
Qed.

(** The keywords reported: each one once, whatever the list repeats. *)
Lemma reported_keywords `{SetOrder} (keywords : list str) (text_lower : str) :
  let found :=
    list_of_set (capitalize <$> List.filter (λ k, contains k text_lower) keywords) in
  NoDup found
  ∧ length found ≤ length (remove_dups keywords)
  ∧ ∀ k1 k2, k1 ∈ keywords → k2 ∈ keywords → contains k2 k1 = true →
      contains k1 text_lower = true →
      capitalize k1 ∈ found ∧ capitalize k2 ∈ found.
Proof.
  intros found. split_and!.
  - apply list_of_set_NoDup.
  - transitivity (length (remove_dups (capitalize <$> keywords))).
    + apply submseteq_length, NoDup_submseteq; [apply list_of_set_NoDup|].
      intros x. unfold found.
      rewrite list_of_set_elem, elem_of_remove_dups, !list_elem_of_fmap.
      intros (k & -> & [Hk _]%elem_of_filter_bool). eauto.
    + rewrite <-(length_fmap capitalize (remove_dups keywords)).
      apply submseteq_length, NoDup_submseteq; [apply NoDup_remove_dups|].
      intros x. rewrite elem_of_remove_dups, !list_elem_of_fmap.
      intros (k & -> & Hk). exists k. by rewrite elem_of_remove_dups.
  - intros k1 k2 Hk1 Hk2 Hsub Hin. unfold found.
    rewrite !list_of_set_elem, !list_elem_of_fmap. split.
    + exists k1. by rewrite elem_of_filter_bool.
    + exists k2. rewrite elem_of_filter_bool. eauto using contains_trans.
Qed.

Lemma extract_pricing_fields `{SetOrder} (text : str) (info : PricingInfo) :
  extract_pricing text = Some info →
  free_option info = contains "free" (lower text)
  ∧ trial_available info
    = contains "trial" (lower text) || contains "free trial" (lower text)
  ∧ tiers info
    = list_of_set
        (capitalize <$> List.filter (λ tier, contains tier (lower text)) tier_keywords)
  ∧ prices info = take 5 (sorted (list_of_set (all_prices text))).
Proof.
  destruct text as [|c text]; [done|]. intros Heq.
  unfold extract_pricing in Heq. by injection Heq as <-.
Qed.

(** X12. The flags and tiers of [extract_pricing]: [trial_available] is set
    exactly when the lowercased text contains "trial" (the second test, for
    "free trial", adds nothing), and a text that mentions a free trial is
    reported with [free_option] set as well.  The tiers hold no entry twice,
    there are at most seven, and a text in which "professional" occurs is
    reported with both the tiers Professional and Pro. *)
Theorem extract_pricing_flags_and_tiers `{SetOrder} (text : str) (info : PricingInfo) :
  extract_pricing text = Some info →
  trial_available info = contains "trial" (lower text)
  ∧ free_option info = contains "free" (lower text)
  ∧ (contains "free trial" (lower text) = true →
     free_option info = true ∧ trial_available info = true)
  ∧ NoDup (tiers info)
  ∧ length (tiers info) ≤ 7
  ∧ (contains "professional" (lower text) = true →
     ("Professional" : str) ∈ tiers info ∧ ("Pro" : str) ∈ tiers info).
Proof.
  intros (-> & -> & -> & _)%extract_pricing_fields.
  set (text_lower := lower text).
  destruct (reported_keywords tier_keywords text_lower) as (Hnd & Hlen & Hboth).
  assert (contains "free trial" text_lower = true →
          contains "free" text_lower = true ∧ contains "trial" text_lower = true) as Hft.
  { intros Hft. split; (eapply contains_trans; [|exact Hft]); by vm_compute. }
  split_and!; [|done| |exact Hnd|exact Hlen|].
  - destruct (contains "free trial" text_lower) eqn:Hc; [|apply orb_false_r].
    destruct (Hft eq_refl) as [_ ->]. done.
  - intros [-> ->]%Hft. done.
  - intros Hpro.
    apply (Hboth "professional" "pro"); [| |by vm_compute|done];
      apply (bool_decide_unpack _); by vm_compute.
Qed.

Lemma extract_pricing_flags_and_tiers_witness :
  let text : str := "Professional plan with a Free Trial" in
  ∃ info,
    @extract_pricing insertion_order text = Some info
    ∧ contains "free trial" (lower text) = true
    ∧ contains "professional" (lower text) = true
    ∧ free_option info = true ∧ trial_available info = true
    ∧ ("Professional" : str) ∈ tiers info ∧ ("Pro" : str) ∈ tiers info.
Proof.
  intros text. eexists. split; [reflexivity|].
  pose proof (@extract_pricing_flags_and_tiers insertion_order text _ eq_refl)
    as (_ & _ & Hft & _ & _ & Hpro).
  assert (contains "free trial" (lower text) = true) as H1 by reflexivity.
  assert (contains "professional" (lower text) = true) as H2 by reflexivity.
  split; [exact H1|]. split; [exact H2|].
  destruct (Hft H1) as [Hfree Htrial]. destruct (Hpro H2) as [Hp1 Hp2].
  split; [exact Hfree|]. split; [exact Htrial|]. split; [exact Hp1|exact Hp2].
Defined.

(** X13. [extract_target_customers] reads the text without regard to case
    and reports every customer keyword once: no entry occurs twice, there are
    at most 18 entries (the list of keywords holds "enterprise" twice), the
    empty text gives none, and a text in which "small business" occurs is
    reported with both Small business and Business. *)
Theorem extract_target_customers_keywords `{SetOrder} (text : str) :
  NoDup (extract_target_customers text)
  ∧ length (extract_target_customers text) ≤ 18
  ∧ extract_target_customers [] = []
  ∧ extract_target_customers (lower text) = extract_target_customers text
  ∧ (contains "small business" (lower text) = true →
     ("Small business" : str) ∈ extract_target_customers text
     ∧ ("Business" : str) ∈ extract_target_customers text).
Proof.
  destruct text as [|c text].
  - split_and!; [apply NoDup_nil_2|simpl; lia|done|done|done].
  - unfold extract_target_customers. rewrite lower_idempotent.
    change (lower (c :: text)) with (lower_char c :: lower text).
    cbv beta iota. fold (lower (c :: text)).
    destruct (reported_keywords customer_keywords (lower (c :: text)))
      as (Hnd & Hlen & Hboth).
    split_and!; [exact Hnd|exact Hlen|done|done|].
    intros Hsb.
    apply (Hboth "small business" "business"); [| |by vm_compute|done];
      apply (bool_decide_unpack _); by vm_compute.
Qed.

Lemma extract_target_customers_keywords_witness :
  let text : str := "Built for Small Business owners" in
  contains "small business" (lower text) = true
  ∧ ("Small business" : str) ∈ @extract_target_customers insertion_order text
  ∧ ("Business" : str) ∈ @extract_target_customers insertion_order text.
Proof.
  intros text.
  assert (contains "small business" (lower text) = true) as Hsb by reflexivity.
  split; [exact Hsb|].
  exact (proj2 (proj2 (proj2 (proj2
           (@extract_target_customers_keywords insertion_order text)))) Hsb).
Defined.

(** ** The callers (runner.py, [__main__]; app.py) *)

(** [company_name.lower().replace(" ", "_").replace("/", "_")] *)
Definition file_stem (name : str) : str :=
  replace "/" "_" (replace " " "_" (lower name)).

(** The name of the file to which a result is saved, with the time stamp
    [datetime.now().strftime('%Y%m%d_%H%M%S')]; [None] stands for the
    [KeyError] that [output['identity']] raises on a result without
    identity. *)
Definition filename (output : Result) (stamp : str) : option str :=
  match identity output with
  | None => None
  | Some ident => Some (file_stem (company_name ident) ++ "_" ++ stamp ++ ".json")
  end.

(** app.py: what is written under "What They Do". *)
Definition shown_description (description : str) : str :=
  if 500 <? length description
  then take 500 description ++ "..."
  else description.

(** app.py: the URL that is scraped, from what was typed. *)
Definition website_url (typed : str) : str :=
  match typed with
  | [] => []
  | _ => if negb (startswith "http" typed) then "https://" ++ typed else typed
  end.






Section Callers.

Context `{SetOrder} `{Browser} `{Parser} `{Urllib} `{Clock}.



End Callers.

Section CannedCallers.

Import Canned.

Example run_filename_canned :
  filename (run Canned.home Canned.start).1 "20240101_000000"
  = Some ("acme_rockets_20240101_000000.json" : str).
Proof. by vm_compute. Qed.


End CannedCallers.

(** X15. The cut that app.py makes before it shows a description changes
    nothing in a description that [extract_company_description] returned: a
    description longer than 500 characters is one that was cut at 500 and
    given its three points, and cutting it at 500 again gives the same
    text. *)
Theorem shown_description_unchanged (text : str) :
  shown_description (extract_company_description text)
  = extract_company_description text
  ∧ (500 <? length (extract_company_description text))
    = (500 <? length (description_body text)).
Proof.
  unfold shown_description. rewrite extract_company_description_body.
  destruct (Nat.ltb_spec 500 (length (description_body text))) as [Hlt|Hle].
  - assert (length (take 500 (description_body text)) = 500) as Hlen
      by (rewrite length_take; lia).
    assert ((500 <? length (take 500 (description_body text) ++ "...")) = true) as ->.
    { apply Nat.ltb_lt. rewrite length_app, Hlen.
      change (length ("..." : str)) with 3. lia. }
    split; [|done]. by rewrite take_app_length'.
  - by apply Nat.ltb_ge in Hle as ->.
Qed.

(** X16. The URL that app.py scrapes: nothing when nothing was typed; what
    was typed when it begins with [http] (whatever follows these four
    letters); in every other case what was typed with [https://] put in
    front.  The result of a non-empty input begins with [http], and
    normalising it again changes nothing. *)
Theorem website_url_scheme (typed : str) :
  website_url [] = []
  ∧ (∀ rest, website_url ("http" ++ rest) = "http" ++ rest)
  ∧ (startswith "http" typed = true → website_url typed = typed)
  ∧ (typed ≠ [] → startswith "http" typed = false →
     website_url typed = "https://" ++ typed)
  ∧ (typed ≠ [] → startswith "http" (website_url typed) = true)
  ∧ website_url (website_url typed) = website_url typed.
Proof.
  assert (∀ t : str, startswith "http" ("https://" ++ t) = true) as Hs by done.
  split; [done|]. split; [done|].
  destruct typed as [|c t]; [done|].
  assert (website_url (c :: t)
          = if startswith "http" (c :: t) then c :: t else "https://" ++ c :: t) as Heq
    by (unfold website_url; by destruct (startswith _ _)).
  destruct (startswith "http" (c :: t)) eqn:Hc.
  - rewrite !Heq. by split_and!.
  - rewrite !Heq. split_and!; [done|done|intros _; apply Hs|reflexivity].
Qed.

Lemma website_url_scheme_witness :
  ("acme.test" : str) ≠ []
  ∧ startswith "http" "acme.test" = false
  ∧ website_url "acme.test" = "https://" ++ "acme.test"
  ∧ startswith "http" (website_url "acme.test") = true
  ∧ startswith "http" "httpbin.test" = true
  ∧ website_url "httpbin.test" = "httpbin.test".
Proof.
  assert (("acme.test" : str) ≠ []) as Hne by discriminate.
  assert (startswith "http" "acme.test" = false) as Hplain by reflexivity.
  assert (startswith "http" "httpbin.test" = true) as Hhttp by reflexivity.
  destruct (website_url_scheme "acme.test") as (_ & _ & _ & Hfront & Hbegins & _).
  destruct (website_url_scheme "httpbin.test") as (_ & _ & Hkept & _).
  split; [exact Hne|]. split; [exact Hplain|]. split; [exact (Hfront Hne Hplain)|].
  split; [exact (Hbegins Hne)|]. split; [exact Hhttp|exact (Hkept Hhttp)].
Defined.

(** ** The form of a description (extractor.py, [extract_company_description]) *)

(** [re.sub(r"\s+", " ", s)] keeps a last character that is not white
    space. *)
Lemma collapse_last (a b : str) (skip : nat) (c : ascii) :
  skip ≤ run_length is_space (a ++ [c]) → is_space c = false →
  ∃ out, sub_from whitespace_run " " b (a ++ [c]) skip = out ++ [c].
Proof.
  intros Hskip Hc. revert b skip Hskip.
  induction a as [|x a IH]; intros b skip Hskip.
  - cbn [app run_length] in *. rewrite Hc in Hskip.
    assert (skip = 0) as -> by lia. exists [].
    cbn [sub_from]. rewrite whitespace_run_at. cbn [run_length]. by rewrite Hc.
  - change ((x :: a) ++ [c]) with (x :: (a ++ [c])) in *. destruct skip as [|n].
    + cbn [sub_from]. rewrite whitespace_run_at. cbn [run_length].
      destruct (is_space x) eqn:Hx.
      * unfold span. cbn [rest]. rewrite length_drop.
        pose proof (run_length_le is_space (a ++ [c])).
        replace (length (x :: a ++ [c])
                 - (length (x :: a ++ [c]) - S (run_length is_space (a ++ [c]))))
          with (S (run_length is_space (a ++ [c]))) by (simpl; lia).
        destruct (IH (x :: b) (run_length is_space (a ++ [c]))) as [out Hout]; [lia|].
        cbn [pred]. rewrite Hout. by exists (" " ++ out).
      * destruct (IH (x :: b) 0) as [out Hout]; [lia|].
        rewrite Hout. by exists (x :: out).
    + cbn [run_length] in Hskip. destruct (is_space x) eqn:Hx; [|lia].
      cbn [sub_from]. apply IH. lia.
Qed.

Lemma single_spaced_app (s t : str) :
  single_spaced s = true → single_spaced t = true →
  (∀ x t', t = x :: t' → is_space x = false) →
  single_spaced (s ++ t) = true.
Proof.
  intros Hs Ht Hfirst. induction s as [|c s IH]; [done|].
  change ((c :: s) ++ t) with (c :: (s ++ t)). cbn [single_spaced] in *.
  apply andb_true_iff in Hs as [Hc Hs]. rewrite (IH Hs), andb_true_r.
  destruct (is_space c); [|done].
  apply andb_true_iff in Hc as [-> Hnext]. simpl.
  destruct s as [|y s]; [|done]. simpl.
  destruct t as [|x t']; [done|]. by rewrite (Hfirst x t').
Qed.

(** The text before truncation is single-spaced and has no white space at
    either end. *)
Lemma description_body_form (text : str) :
  single_spaced (description_body text) = true
  ∧ (∀ c t, description_body text = c :: t → is_space c = false)
  ∧ (∀ c t, description_body text = t ++ [c] → is_space c = false).
Proof.
  unfold description_body. set (joined := join ". " (take 5 (split "." text))).
  destruct (strip_ends joined) as [Hfirst Hlast].
  assert (run_length is_space (strip joined) = 0) as Hrun.
  { destruct (strip joined) as [|c t] eqn:Hs; [done|]. simpl.
    by rewrite (Hfirst c t). }
  destruct (collapse_spec (strip joined) [] 0) as (Hss & Hhead & _); [lia|].
  fold (sub whitespace_run " " (strip joined)) in Hss, Hhead.
  split_and!; [done|by apply Hhead|].
  intros c t Heq.
  destruct (strip joined) as [|y a _] eqn:Hs using rev_ind.
  - by destruct t.
  - pose proof (Hlast y a eq_refl) as Hy.
    destruct (collapse_last a [] 0 y) as [out Hout]; [lia|done|].
    unfold sub in Heq. rewrite Hout in Heq.
    by apply app_inj_tail in Heq as [_ <-].
Qed.

(** X17. A description is a text in the form [clean_text] gives: every
    white-space character in it is a single space between two other
    characters, with no white space at either end, also when the text was cut
    and given its three points. *)
Theorem extract_company_description_form (text : str) :
  single_spaced (extract_company_description text) = true
  ∧ strip (extract_company_description text) = extract_company_description text
  ∧ clean_text (extract_company_description text) = extract_company_description text.
Proof.
  destruct (description_body_form text) as (Hss & Hfirst & Hlast).
  assert (single_spaced (extract_company_description text) = true
          ∧ strip (extract_company_description text)
            = extract_company_description text) as [Hsingle Hstrip].
  { rewrite extract_company_description_body.
    destruct (Nat.ltb_spec 500 (length (description_body text))) as [Hlt|Hle].
    - split.
      + apply single_spaced_app; [|done|by intros x t' [= <- _]].
        rewrite <-(take_drop 500 (description_body text)) in Hss.
        by apply single_spaced_app_l in Hss.
      + apply strip_id.
        * intros c t Heq. destruct (description_body text) as [|y body] eqn:Hb;
            [simpl in Hlt; lia|].
          injection Heq as <- _. by apply (Hfirst y body).
        * intros c t Heq.
          change ("..." : str) with (".." ++ ["."%char]) in Heq.
          rewrite app_assoc in Heq. by apply app_inj_tail in Heq as [_ <-].
    - split; [done|]. by apply strip_id. }
  split_and!; [done|done|].
  destruct (extract_company_description text) as [|c t] eqn:Hd; [done|].
  unfold clean_text, sub. by rewrite collapse_single_spaced.
Qed.

(** ** Services (extractor.py, [extract_services_and_products]) *)






(** ** Columns for the social links (app.py) *)

(** [min(5, len(result["social_links"])) if result["social_links"] else 1] *)
Definition social_columns (socials : gmap string str) : nat :=
  if bool_decide (socials = ∅) then 1 else min 5 (size socials).

(** X19. A mapping made by [categorize_social_links] has at most five
    entries, so app.py lays out one column for each link it shows: the bound
    of five columns is never what limits them. *)
Theorem social_columns_one_per_link (links : list str) :
  size (categorize_social_links links) ≤ 5
  ∧ social_columns (categorize_social_links links)
    = max 1 (size (categorize_social_links links)).
Proof.
  assert (size (categorize_social_links links) ≤ 5) as Hsize.
  { rewrite <-size_dom.
    etrans; [apply subseteq_size, categorize_dom|]. by vm_compute. }
  split; [done|]. unfold social_columns. case_bool_decide as Hempty.
  - by rewrite Hempty, map_size_empty.
  - apply map_size_non_empty_iff in Hempty. lia.
Qed.

(** ** Which pages a run reaches (runner.py, [run]) *)

Section RunCoverage.

Context `{SetOrder} `{Browser} `{Parser} `{Urllib} `{Clock}.


(** X21. The fields of a result that count the pages agree: no page is
    listed twice in [visited], [page_details] has as many entries as
    [visited], and [pages_crawled] is one more. *)
Theorem run_page_counts_agree (url html : str) (w : World) :
  (driver_get (driver w) url).2 = Loaded html → html ≠ [] →
  ∃ pages,
    key_pages (run url w).1 = Some pages
    ∧ NoDup (visited pages)
    ∧ size (page_details pages) = length (visited pages)
    ∧ pages_crawled (metadata (run url w).1) = 1 + size (page_details pages).
Proof.
  intros Ho Hhtml.
  destruct (run_delivered url html w Ho Hhtml) as (attempts & d & Hitems & _ & Hr).
  eexists. rewrite Hr. split; [reflexivity|].
  cbn [page_details visited result_of key_pages metadata pages_crawled].
  assert (NoDup (documents attempts).*1) as Hnd.
  { eapply sublist_NoDup; [|apply documents_sublist]. rewrite Hitems.
    apply selected_pages. }
  match goal with |- context [foldl absorb ?acc _] =>
    destruct (absorb_contents (documents attempts) acc) as [Hdom _]
  end.
  simpl in Hdom. rewrite dom_empty_L, union_empty_l_L in Hdom.
  assert (size (page_contents
                  (foldl absorb
                     {| all_text := page_text html; visited_pages := [];
                        page_contents := ∅; social_set := [] |}
                     (documents attempts)))
          = length (documents attempts).*1) as Hsize.
  { rewrite <-size_dom, Hdom. by apply size_list_to_set. }
  rewrite Hsize, length_fmap. by split_and!.
Qed.

End RunCoverage.

Section CannedCoverage.

Import Canned.


Lemma run_page_counts_agree_witness :
  (driver_get (driver Canned.start) Canned.home).2 = Loaded "HOME"
  ∧ ("HOME" : str) ≠ []
  ∧ ∃ pages,
      key_pages (run Canned.home Canned.start).1 = Some pages
      ∧ NoDup (visited pages)
      ∧ size (page_details pages) = length (visited pages)
      ∧ pages_crawled (metadata (run Canned.home Canned.start).1)
        = 1 + size (page_details pages).
Proof.
  split; [reflexivity|]. split; [discriminate|].
  apply (run_page_counts_agree Canned.home "HOME" Canned.start);
    [reflexivity|discriminate].
Defined.

End CannedCoverage.

(** ** The keyword tests read the whole link (extractor.py, utils.py) *)

Lemma lower_app (s t : str) : lower (s ++ t) = lower s ++ lower t.
Proof. apply map_app. Qed.

Lemma contains_lower_part (key pre part post : str) :
  contains key (lower part) = true →
  contains key (lower (pre ++ part ++ post)) = true.
Proof.
  intros Hkey. eapply contains_trans; [exact Hkey|].
  rewrite !lower_app. apply contains_iff. eauto.
Qed.

(** X22. [is_priority], the test of [filter_priority_pages], and
    [is_social_link] look for their keywords anywhere in the link and without
    regard to case: a link is accepted as soon as a part of it, the host name
    for instance, would be accepted on its own, and lowercasing a link
    changes neither answer. *)
Theorem keyword_tests_read_whole_link (pre part post : str) :
  (is_priority part = true → is_priority (pre ++ part ++ post) = true)
  ∧ (is_social_link part = true → is_social_link (pre ++ part ++ post) = true)
  ∧ is_priority (lower part) = is_priority part
  ∧ is_social_link (lower part) = is_social_link part.
Proof.
  unfold is_priority, is_social_link. rewrite lower_idempotent. split_and!; [| |done..].
  - intros (key & Hkey & Hin)%existsb_exists. apply existsb_exists.
    exists key. eauto using contains_lower_part.
  - intros (key & Hkey & Hin)%existsb_exists. apply existsb_exists.
    exists key. eauto using contains_lower_part.
Qed.

Lemma keyword_tests_read_whole_link_witness :
  is_priority "team" = true
  ∧ is_priority ("https://" ++ "team" ++ "work.test/legal") = true
  ∧ is_social_link "x.com" = true
  ∧ is_social_link ("https://www.netfli" ++ "x.com" ++ "/") = true.
Proof.
  assert (is_priority "team" = true) as Hp by reflexivity.
  assert (is_social_link "x.com" = true) as Hs by reflexivity.
  split; [exact Hp|]. split.
  - exact (proj1 (keyword_tests_read_whole_link "https://" "team" "work.test/legal") Hp).
  - split; [exact Hs|].
    exact (proj1 (proj2 (keyword_tests_read_whole_link "https://www.netfli" "x.com" "/")) Hs).
Defined.
